(** * Tag balance checker of [analyzer.py]: model and verification

    The script reads one file, extracts tag tokens with a regular expression
    ([re.finditer]), keeps a stack of open tags with their line numbers and
    prints one line per structural problem.  This development embeds

    - the fragment of Python's [str] the script uses ([count], [strip],
      slicing, [==], f-string formatting of integers),
    - a backtracking matcher for the fragment of [re] the pattern is written
      in, with Python's priorities (greedy and lazy repetition, optional
      groups, capture groups), and [finditer] on top of it,
    - the body of [analyze_jsx] as a function on an explicit state (stack and
      printed lines) in an exception monad,

    and proves the properties of the specification about them. *)

From Stdlib Require Import List NArith Arith Bool Lia String Ascii DecimalString
  DecimalNat Sorted.
Import ListNotations.
Local Open Scope list_scope.

Set Implicit Arguments.

(** ** Python strings *)

Module PyStr.

(** A [str] is a sequence of Unicode code points. *)
Definition char := N.
Definition str := list char.

Definition chr (a : ascii) : char := N_of_ascii a.

Definition of_string (s : string) : str := map chr (list_ascii_of_string s).

Definition char_eqb (a b : char) : bool := N.eqb a b.

(** [a == b] on strings. *)
Fixpoint eqb (a b : str) : bool :=
  match a, b with
  | [], [] => true
  | x :: a', y :: b' => char_eqb x y && eqb a' b'
  | _, _ => false
  end.

(** [x in l] for a list of strings [l]. *)
Definition mem (x : str) (l : list str) : bool := existsb (eqb x) l.

Definition in_range (lo hi c : char) : bool := (N.leb lo c && N.leb c hi)%bool.

(** Whitespace as CPython's [Py_UNICODE_ISSPACE] has it; both [\s] in a
    [str] pattern and [str.strip()] use this test. *)
Definition isspace (c : char) : bool :=
  (in_range 9 13 c || in_range 28 32 c || char_eqb c 133 || char_eqb c 160
   || char_eqb c 5760 || in_range 8192 8202 c || char_eqb c 8232
   || char_eqb c 8233 || char_eqb c 8239 || char_eqb c 8287
   || char_eqb c 12288)%N%bool.

Fixpoint lstrip (s : str) : str :=
  match s with
  | c :: s' => if isspace c then lstrip s' else s
  | [] => []
  end.

Definition rstrip (s : str) : str := rev (lstrip (rev s)).

(** [s.strip()] *)
Definition strip (s : str) : str := rstrip (lstrip s).

(** [s[lo:hi]] for [0 <= lo], [0 <= hi]. *)
Definition slice (s : str) (lo hi : nat) : str := firstn (hi - lo) (skipn lo s).

(** [s.count(c)] for a one-character [c]. *)
Fixpoint count1 (c : char) (s : str) : nat :=
  match s with
  | [] => 0
  | x :: s' => (if char_eqb x c then 1 else 0) + count1 c s'
  end.

(** [s.count(c, lo, hi)]: occurrences within the slice [s[lo:hi]]. *)
Definition count (c : char) (s : str) (lo hi : nat) : nat :=
  count1 c (slice s lo hi).

(** [str(n)] for a non-negative integer. *)
Definition of_nat (n : nat) : str :=
  of_string (NilEmpty.string_of_uint (Nat.to_uint n)).

Definition newline : char := chr "010".

End PyStr.

Import PyStr.

(** ** Backtracking regular expressions *)

Module Re.

(** The constructs the pattern of the script is built from.  Repetition
    is over one-character sets, which is all the pattern has. *)
Inductive re : Type :=
| Lit (c : char)                  (* a literal character *)
| Set_ (p : char -> bool)         (* [...] or a class such as \s *)
| Cat (r1 r2 : re)                (* r1 r2 *)
| Opt (r : re)                    (* r?   greedy *)
| Star (p : char -> bool)         (* p*   greedy *)
| StarLazy (p : char -> bool)     (* p*?  lazy *)
| Grp (n : nat) (r : re).         (* the n-th capture group *)

(** [p+] is one [p] followed by [p*], with the same priorities. *)
Definition Plus (p : char -> bool) : re := Cat (Set_ p) (Star p).

(** Spans of the capture groups, most recent binding first. *)
Definition caps := list (nat * (nat * nat)).

(** A match object: span of the whole match and of its groups. *)
Record re_match : Type := { m_start : nat; m_end : nat; m_caps : caps }.

Fixpoint lookup (n : nat) (c : caps) : option (nat * nat) :=
  match c with
  | [] => None
  | (k, sp) :: c' => if Nat.eqb k n then Some sp else lookup n c'
  end.

(** Continuations receive the rest of the subject, the position reached and
    the groups captured so far. *)
Definition cont := str -> nat -> caps -> option (nat * caps).

(** Greedy [p*]: take one more character first, give it back on failure. *)
Fixpoint star (p : char -> bool) (k : cont) (s : str) (i : nat) (c : caps)
  : option (nat * caps) :=
  match s with
  | x :: s' =>
      if p x then
        match star p k s' (S i) c with
        | Some m => Some m
        | None => k s i c
        end
      else k s i c
  | [] => k s i c
  end.

(** Lazy [p*?]: try the rest of the pattern first, take one more on failure. *)
Fixpoint star_lazy (p : char -> bool) (k : cont) (s : str) (i : nat) (c : caps)
  : option (nat * caps) :=
  match k s i c with
  | Some m => Some m
  | None =>
      match s with
      | x :: s' => if p x then star_lazy p k s' (S i) c else None
      | [] => None
      end
  end.

(** [run r k s i c]: match [r] at the head of [s], which starts at offset
    [i] of the subject, then continue with [k]; the first success in
    Python's order of alternatives is returned. *)
Fixpoint run (r : re) (k : cont) (s : str) (i : nat) (c : caps)
  : option (nat * caps) :=
  match r with
  | Lit a =>
      match s with
      | x :: s' => if char_eqb x a then k s' (S i) c else None
      | [] => None
      end
  | Set_ p =>
      match s with
      | x :: s' => if p x then k s' (S i) c else None
      | [] => None
      end
  | Cat r1 r2 => run r1 (run r2 k) s i c
  | Opt r1 =>
      match run r1 k s i c with
      | Some m => Some m
      | None => k s i c
      end
  | Star p => star p k s i c
  | StarLazy p => star_lazy p k s i c
  | Grp n r1 => run r1 (fun s' i' c' => k s' i' ((n, (i, i')) :: c')) s i c
  end.

Definition accept : cont := fun _ i c => Some (i, c).

(** [pattern.match(subject, i)] where [s] is the subject from offset [i]. *)
Definition match_at (r : re) (s : str) (i : nat) : option re_match :=
  match run r accept s i [] with
  | Some (e, c) => Some {| m_start := i; m_end := e; m_caps := c |}
  | None => None
  end.

(** [finditer]: scan from left to right, a match is tried at every offset
    that is not inside the previous match; the search resumes where a match
    ended.  [skip] counts the characters still covered by the last match.
    (CPython's extra rule for empty matches never applies to a pattern that
    consumes at least one character, so a match that ends where it starts
    resumes one character further.) *)
Fixpoint finditer_from (r : re) (s : str) (i : nat) (skip : nat)
  : list re_match :=
  match s with
  | [] =>
      match skip, match_at r [] i with
      | O, Some m => [m]
      | _, _ => []
      end
  | _ :: s' =>
      match skip with
      | S n => finditer_from r s' (S i) n
      | O =>
          match match_at r s i with
          | Some m => m :: finditer_from r s' (S i) (m_end m - i - 1)
          | None => finditer_from r s' (S i) 0
          end
      end
  end.

Definition finditer (r : re) (content : str) : list re_match :=
  finditer_from r content 0 0.

(** [m.group(n)]: [None] when the group took no part in the match. *)
Definition group (content : str) (m : re_match) (n : nat) : option str :=
  match lookup n (m_caps m) with
  | Some (a, b) => Some (slice content a b)
  | None => None
  end.

End Re.

Import Re.

(** ** The script *)

Module Analyzer.

(** Exceptions the statements of the script can raise. *)
Inductive exn : Type :=
| OSError          (* open/read of the input file *)
| IndexError       (* pop from an empty list *)
| AttributeError.  (* a method called on None *)

Inductive result (A : Type) : Type :=
| Ok (a : A)
| Raise (e : exn).
Arguments Raise {A} e.

Definition bind {A B : Type} (x : result A) (f : A -> result B) : result B :=
  match x with
  | Ok a => f a
  | Raise e => Raise e
  end.

Notation "x <- e1 ;; e2" := (bind e1 (fun x => e2))
  (at level 61, e1 at next level, right associativity).
Notation "' p <- e1 ;; e2" := (bind e1 (fun p => e2))
  (at level 61, p pattern, e1 at next level, right associativity).

(** *** The pattern

    [< (/?) ([a-zA-Z0-9:]+) (?: \s+ [^>]*? )? ( /? \s* ) >], written here
    with blanks between its parts. *)

Definition name_char (c : char) : bool :=
  in_range (chr "a") (chr "z") c || in_range (chr "A") (chr "Z") c
  || in_range (chr "0") (chr "9") c || char_eqb c (chr ":").

Definition not_gt (c : char) : bool := negb (char_eqb c (chr ">")).

Definition tag_re : re :=
  Cat (Lit (chr "<"))
 (Cat (Grp 1 (Opt (Lit (chr "/"))))
 (Cat (Grp 2 (Plus name_char))
 (Cat (Opt (Cat (Plus isspace) (StarLazy not_gt)))
 (Cat (Grp 3 (Cat (Opt (Lit (chr "/"))) (Star isspace)))
      (Lit (chr ">")))))).

(** *** Data *)

(** A matched tag occurrence, as the loop body sees it. *)
Record token : Type := {
  is_closing : bool;
  tag_name : str;
  is_self_closing : bool;
  line_num : nat
}.

(** An entry of [stack]: the tuple [(tag_name, line_num)]. *)
Definition record : Type := (str * nat)%type.

(** The mutable state of the run: [stack] and the lines printed so far.
    The Python list [stack] is only ever used through [append] and [pop]
    at its end; it is kept here with that end first. *)
Record state : Type := { stack : list record; stdout : list str }.

Definition init : state := {| stack := []; stdout := [] |}.

Definition void_tags : list str :=
  map of_string ["img"; "br"; "hr"; "input"; "meta"; "link"]%string.

(** The three f-strings. *)
Definition msg_unexpected (tag : str) (line : nat) : str :=
  of_string "Error: Unexpected closing tag </" ++ tag
    ++ of_string "> at line " ++ of_nat line.

Definition msg_mismatched (last_tag : str) (last_line : nat)
           (tag : str) (line : nat) : str :=
  of_string "Error: Mismatched tag. Opened <" ++ last_tag
    ++ of_string "> at line " ++ of_nat last_line
    ++ of_string ", closed </" ++ tag
    ++ of_string "> at line " ++ of_nat line.

Definition msg_unclosed (tag : str) (line : nat) : str :=
  of_string "Error: Unclosed tag <" ++ tag
    ++ of_string "> opened at line " ++ of_nat line.

(** *** Statements *)

Definition print (line : str) (st : state) : state :=
  {| stack := stack st; stdout := stdout st ++ [line] |}.

(** [stack.append(r)] *)
Definition append (r : record) (st : state) : state :=
  {| stack := r :: stack st; stdout := stdout st |}.

(** [stack.pop()] *)
Definition pop (st : state) : result (record * state) :=
  match stack st with
  | [] => Raise IndexError
  | r :: rest => Ok (r, {| stack := rest; stdout := stdout st |})
  end.

(** A group as a string.  [m.group(3).strip()] raises on a group that took
    no part in the match; for [m.group(2)] the script would go on with
    [None] as the name, the model stops there as well.  Every group of
    [tag_re] takes part in every match ([classify_found] below), so neither
    case arises. *)
Definition get_group (content : str) (m : re_match) (n : nat) : result str :=
  match group content m n with
  | Some g => Ok g
  | None => Raise AttributeError
  end.

(** The four assignments at the head of the loop body. *)
Definition classify (content : str) (m : re_match) : result token :=
  let line := count newline content 0 (m_start m) + 1 in
  let closing :=
    match group content m 1 with
    | Some g => eqb g (of_string "/")
    | None => false
    end in
  name <- get_group content m 2 ;;
  g3 <- get_group content m 3 ;;
  let self_closing := eqb (strip g3) (of_string "/") || mem name void_tags in
  Ok {| is_closing := closing; tag_name := name;
        is_self_closing := self_closing; line_num := line |}.

(** The rest of the loop body. *)
Definition process (t : token) (st : state) : result state :=
  if is_self_closing t then Ok st
  else if is_closing t then
    match stack st with
    | [] => Ok (print (msg_unexpected (tag_name t) (line_num t)) st)
    | _ :: _ =>
        '(last, st') <- pop st ;;
        let '(last_tag, last_line) := last in
        if negb (eqb last_tag (tag_name t)) then
          Ok (print (msg_mismatched last_tag last_line
                       (tag_name t) (line_num t)) st')
        else Ok st'
    end
  else Ok (append (tag_name t, line_num t) st).

Definition body (content : str) (m : re_match) (st : state) : result state :=
  t <- classify content m ;;
  process t st.

(** [for match in re.finditer(...): body] *)
Fixpoint loop (content : str) (ms : list re_match) (st : state)
  : result state :=
  match ms with
  | [] => Ok st
  | m :: ms' => st' <- body content m st ;; loop content ms' st'
  end.

(** [while stack: tag, line = stack.pop(); print(...)] *)
Fixpoint drain (stk : list record) (out : list str) : list str :=
  match stk with
  | [] => out
  | (tag, line) :: rest => drain rest (out ++ [msg_unclosed tag line])
  end.

(** The run on the text of the file: the lines printed, in order.  (The
    [re.findall] result bound to [tags] is never used.) *)
Definition scan (content : str) : result (list str) :=
  st <- loop content (finditer tag_re content) init ;;
  Ok (drain (stack st) (stdout st)).

(** [analyze_jsx(file_path)] on a file system that gives the text of a
    readable file and nothing for a path that cannot be opened or read. *)
Definition analyze_jsx (fs : str -> option str) (file_path : str)
  : result (list str) :=
  match fs file_path with
  | None => Raise OSError
  | Some content => scan content
  end.

(** *** The token stream *)

Fixpoint classify_all (content : str) (ms : list re_match)
  : result (list token) :=
  match ms with
  | [] => Ok []
  | m :: ms' =>
      t <- classify content m ;;
      ts <- classify_all content ms' ;;
      Ok (t :: ts)
  end.

Definition tokens (content : str) : result (list token) :=
  classify_all content (finditer tag_re content).

Fixpoint process_all (ts : list token) (st : state) : result state :=
  match ts with
  | [] => Ok st
  | t :: ts' => st' <- process t st ;; process_all ts' st'
  end.

End Analyzer.

Import Analyzer.

(** ** What a match is

    The backtracking matcher returns the first success in priority order.
    Whatever it returns is a match in the usual declarative sense: [matches r
    s i c s' i' c'] says that [r] consumes the head of [s] (at offset [i]) up
    to [s'] (at offset [i']) and extends the captures [c] to [c']. *)

Inductive matches : re -> str -> nat -> caps -> str -> nat -> caps -> Prop :=
| M_lit a s i c :
    matches (Lit a) (a :: s) i c s (S i) c
| M_set (p : char -> bool) x s i c :
    p x = true -> matches (Set_ p) (x :: s) i c s (S i) c
| M_cat r1 r2 s i c s1 i1 c1 s2 i2 c2 :
    matches r1 s i c s1 i1 c1 -> matches r2 s1 i1 c1 s2 i2 c2 ->
    matches (Cat r1 r2) s i c s2 i2 c2
| M_opt_some r s i c s' i' c' :
    matches r s i c s' i' c' -> matches (Opt r) s i c s' i' c'
| M_opt_none r s i c :
    matches (Opt r) s i c s i c
| M_star_nil p s i c :
    matches (Star p) s i c s i c
| M_star_cons (p : char -> bool) x s i c s' i' c' :
    p x = true -> matches (Star p) s (S i) c s' i' c' ->
    matches (Star p) (x :: s) i c s' i' c'
| M_lazy_nil p s i c :
    matches (StarLazy p) s i c s i c
| M_lazy_cons (p : char -> bool) x s i c s' i' c' :
    p x = true -> matches (StarLazy p) s (S i) c s' i' c' ->
    matches (StarLazy p) (x :: s) i c s' i' c'
| M_grp n r s i c s' i' c' :
    matches r s i c s' i' c' ->
    matches (Grp n r) s i c s' i' ((n, (i, i')) :: c').

(** ** The text of a tag *)

(** The text of a tag match, cut where the pattern cuts it. *)
Record tag_text : Type := {
  t_slash : str;   (* group 1: empty or "/" *)
  t_name : str;    (* group 2 *)
  t_attrs : str;   (* the optional attribute segment *)
  t_close : str    (* group 3: an optional "/" and whitespace *)
}.

Definition tag_chars (t : tag_text) (rest : str) : str :=
  chr "<" :: t_slash t ++ t_name t ++ t_attrs t ++ t_close t ++ chr ">" :: rest.

Definition tag_caps (i : nat) (t : tag_text) : caps :=
  let a1 := S i in
  let a2 := a1 + List.length (t_slash t) in
  let a3 := a2 + List.length (t_name t) + List.length (t_attrs t) in
  [ (3, (a3, a3 + List.length (t_close t)));
    (2, (a2, a2 + List.length (t_name t)));
    (1, (a1, a2)) ].

Definition tag_end (i : nat) (t : tag_text) : nat :=
  S i + List.length (t_slash t) + List.length (t_name t)
  + List.length (t_attrs t) + List.length (t_close t) + 1.

Record tag_ok (t : tag_text) : Prop := {
  ok_slash : t_slash t = [] \/ t_slash t = [chr "/"];
  ok_name : t_name t <> [] /\ forallb name_char (t_name t) = true;
  ok_attrs : forallb not_gt (t_attrs t) = true;
  ok_close : exists ws, forallb isspace ws = true /\
                        (t_close t = ws \/ t_close t = chr "/" :: ws);
  (* the lazy attribute segment never takes a final "/" away from group 3 *)
  ok_kept : forall a ws,
      t_attrs t ++ t_close t = a ++ chr "/" :: ws ->
      forallb isspace ws = true -> t_close t = chr "/" :: ws
}.

(** The parts of the pattern after the name. *)
Definition attrs_re : re := Cat (Plus isspace) (StarLazy not_gt).

Definition close_re : re :=
  Cat (Grp 3 (Cat (Opt (Lit (chr "/"))) (Star isspace))) (Lit (chr ">")).

(** A match object for the tag whose text is [t], found after [pre]. *)
Definition tag_match (pre : str) (t : tag_text) : re_match :=
  {| m_start := List.length pre;
     m_end := tag_end (List.length pre) t;
     m_caps := tag_caps (List.length pre) t |}.

(** The token the loop body computes for the tag whose text is [t], found
    after [pre]. *)
Definition tag_token (pre : str) (t : tag_text) : token :=
  {| is_closing := eqb (t_slash t) (of_string "/");
     tag_name := t_name t;
     is_self_closing :=
       eqb (strip (t_close t)) (of_string "/") || mem (t_name t) void_tags;
     line_num := count1 newline pre + 1 |}.

(** ** Notions of the specification *)

(** What a token is to the stack: skipped, an opening tag or a closing tag. *)
Inductive kind : Type := Skipped | Opening | Closing.

Definition kind_of (t : token) : kind :=
  if is_self_closing t then Skipped
  else if is_closing t then Closing else Opening.

(** The record an opening tag leaves on the stack. *)
Definition record_of (t : token) : record := (tag_name t, line_num t).

(** A well-formed token sequence: every opening tag is closed by a closing tag
    of the same name, pairs are properly nested, and self-closing and void
    tags may stand anywhere. *)
Inductive WellFormed : list token -> Prop :=
| wf_nil : WellFormed []
| wf_skip t w :
    kind_of t = Skipped -> WellFormed w -> WellFormed (t :: w)
| wf_pair o c w v :
    kind_of o = Opening -> kind_of c = Closing -> tag_name o = tag_name c ->
    WellFormed w -> WellFormed v -> WellFormed (o :: w ++ c :: v).

(** Pairing of opening and closing tags by position alone, whatever their
    names: a balanced sequence leaves nothing open and closes nothing it has
    not opened. *)
Inductive Balanced : list token -> Prop :=
| bal_nil : Balanced []
| bal_skip t : kind_of t = Skipped -> Balanced [t]
| bal_pair o c w :
    kind_of o = Opening -> kind_of c = Closing -> Balanced w ->
    Balanced (o :: w ++ [c])
| bal_app u v : Balanced u -> Balanced v -> Balanced (u ++ v).

(** A sequence that leaves nothing open: balanced stretches and closing tags
    that had nothing to close. *)
Inductive Settled : list token -> Prop :=
| set_bal u : Balanced u -> Settled u
| set_stray u c v :
    Settled u -> kind_of c = Closing -> Balanced v -> Settled (u ++ c :: v).

(** [Pending ts stk]: the opening tags of [ts] that no closing tag of [ts] is
    paired with are those of [stk], the latest first. *)
Inductive Pending : list token -> list record -> Prop :=
| pend_none u : Settled u -> Pending u []
| pend_open u o v stk :
    Pending u stk -> kind_of o = Opening -> Balanced v ->
    Pending (u ++ o :: v) (record_of o :: stk).

(** [l.startswith(p)] *)
Fixpoint starts_with (p l : str) : bool :=
  match p, l with
  | [], _ => true
  | x :: p', y :: l' => char_eqb x y && starts_with p' l'
  | _ :: _, [] => false
  end.

Definition is_unclosed_msg (l : str) : bool :=
  starts_with (of_string "Error: Unclosed tag <") l.

Definition unclosed_of (r : record) : str := msg_unclosed (fst r) (snd r).

(** The line of the character at offset [off]. *)
Definition line_of (content : str) (off : nat) : nat :=
  1 + count1 newline (firstn off content).

(** ** Tokens of the examples *)

Definition opening_tok (name : string) (line : nat) : token :=
  {| is_closing := false; tag_name := of_string name;
     is_self_closing := false; line_num := line |}.

Definition closing_tok (name : string) (line : nat) : token :=
  {| is_closing := true; tag_name := of_string name;
     is_self_closing := false; line_num := line |}.

Definition skipped_tok (closing : bool) (name : string) (line : nat) : token :=
  {| is_closing := closing; tag_name := of_string name;
     is_self_closing := true; line_num := line |}.

(** ** Further notions *)

(** A match of the pattern with the token made of it. *)
Definition tag_found (content : str) (m : re_match) (t : token) : Prop :=
  exists pre tt rest,
    tag_ok tt /\ content = pre ++ tag_chars tt rest
    /\ m = tag_match pre tt /\ t = tag_token pre tt.

Definition is_unexpected_msg (l : str) : bool :=
  starts_with (of_string "Error: Unexpected closing tag </") l.

Definition is_mismatched_msg (l : str) : bool :=
  starts_with (of_string "Error: Mismatched tag. Opened <") l.

Definition count_if {A : Type} (p : A -> bool) (l : list A) : nat :=
  List.length (filter p l).

Definition is_opening (t : token) : bool :=
  match kind_of t with Opening => true | _ => false end.

Definition is_closing_tag (t : token) : bool :=
  match kind_of t with Closing => true | _ => false end.

(** The lines of the loop are of two kinds, counted apart. *)
Record tally (st : state) (u m : nat) : Prop := {
  tally_u : count_if is_unexpected_msg (stdout st) = u;
  tally_m : count_if is_mismatched_msg (stdout st) = m;
  tally_all : List.length (stdout st) = u + m
}.

(** Opening tags still open after a stretch in which nothing went wrong. *)
Inductive OpenIn : list token -> list record -> Prop :=
| open_none w : WellFormed w -> OpenIn w []
| open_more u o v stk :
    OpenIn u stk -> kind_of o = Opening -> WellFormed v ->
    OpenIn (u ++ o :: v) (record_of o :: stk).

(** A diagnostic with the tokens it is about. *)
Inductive diag : Type :=
| Unexpected (c : token)
| Mismatched (o c : token)
| Unclosed (o : token).

Definition render (d : diag) : str :=
  match d with
  | Unexpected c => msg_unexpected (tag_name c) (line_num c)
  | Mismatched o c =>
      msg_mismatched (tag_name o) (line_num o) (tag_name c) (line_num c)
  | Unclosed o => msg_unclosed (tag_name o) (line_num o)
  end.

(** [o] stands before [c] in [ts]. *)
Definition before (ts : list token) (o c : token) : Prop :=
  exists a b d, ts = a ++ o :: b ++ c :: d.

(** What makes a diagnostic right for the token stream [ts]. *)
Definition justified (ts : list token) (d : diag) : Prop :=
  match d with
  | Unexpected c => In c ts /\ kind_of c = Closing
  | Mismatched o c =>
      before ts o c /\ kind_of o = Opening /\ kind_of c = Closing
      /\ tag_name o <> tag_name c
  | Unclosed o => In o ts /\ kind_of o = Opening
  end.

(** Opening tokens of [ts] behind the records of the stack. *)
Definition backed (ts : list token) (stk : list record) : Prop :=
  exists os, stk = map record_of os
             /\ Forall (fun o => kind_of o = Opening
                                 /\ exists a b, ts = a ++ o :: b) os.

(** The tokens a diagnostic names. *)
Definition named (d : diag) : list token :=
  match d with
  | Unexpected c => [c]
  | Mismatched o c => [o; c]
  | Unclosed o => [o]
  end.

Definition in_order (d : diag) : Prop :=
  match d with
  | Mismatched o c => line_num o <= line_num c
  | _ => True
  end.

(** What may stand between the name and the ">" of a tag: nothing,
    whitespace and then anything but ">", or "/" and whitespace. *)
Definition tag_middle (mid : str) : Prop :=
  forallb not_gt mid = true
  /\ (mid = []
      \/ (exists y w, mid = y :: w /\ isspace y = true)
      \/ (exists ws, mid = chr "/" :: ws /\ forallb isspace ws = true)).

(** ** What the printed text must be *)

(** The value of a decimal digit. *)
Definition digit_value (c : char) : option nat :=
  if (N.leb 48 c && N.leb c 57)%bool then Some (N.to_nat (c - 48)) else None.

(** Reading a string of decimal digits, most significant first. *)
Fixpoint read_digits (acc : nat) (s : str) : option nat :=
  match s with
  | [] => Some acc
  | c :: s' =>
      match digit_value c with
      | Some d => read_digits (d + 10 * acc) s'
      | None => None
      end
  end.

(** [s] is the decimal numeral of [n]: digits only, at least one, no leading
    zero but for "0" itself, and of value [n]. *)
Definition numeral_of (n : nat) (s : str) : Prop :=
  s <> [] /\ read_digits 0 s = Some n
  /\ (forall s', s = 48%N :: s' -> s' = []).


(** The three lines the script can print, character by character. *)
Definition unexpected_text (name : str) (line : nat) (l : str) : Prop :=
  exists num,
    numeral_of line num
    /\ l = of_string "Error: Unexpected closing tag </" ++ name
           ++ of_string "> at line " ++ num.

Definition mismatched_text (name1 : str) (line1 : nat)
           (name2 : str) (line2 : nat) (l : str) : Prop :=
  exists num1 num2,
    numeral_of line1 num1 /\ numeral_of line2 num2
    /\ l = of_string "Error: Mismatched tag. Opened <" ++ name1
           ++ of_string "> at line " ++ num1
           ++ of_string ", closed </" ++ name2
           ++ of_string "> at line " ++ num2.

Definition unclosed_text (name : str) (line : nat) (l : str) : Prop :=
  exists num,
    numeral_of line num
    /\ l = of_string "Error: Unclosed tag <" ++ name
           ++ of_string "> opened at line " ++ num.


(** The text of a diagnostic: the names and the line numbers of its tokens. *)
Definition says (r : diag) (l : str) : Prop :=
  match r with
  | Unexpected c => unexpected_text (tag_name c) (line_num c) l
  | Mismatched o c =>
      mismatched_text (tag_name o) (line_num o) (tag_name c) (line_num c) l
  | Unclosed o => unclosed_text (tag_name o) (line_num o) l
  end.



(** ** Proofs *)

(** Equations between results of the matcher, up to arithmetic on offsets. *)
Ltac nat_eq :=
  repeat match goal with
         | |- Some _ = Some _ => apply f_equal
         | |- (_, _) = (_, _) => apply f_equal2
         | |- _ :: _ = _ :: _ => apply f_equal2
         | |- @eq nat _ _ => lia
         | |- _ => reflexivity
         end.

(** ** Strings *)

Lemma char_eqb_eq (a b : char) : char_eqb a b = true <-> a = b.
Proof. apply N.eqb_eq. Qed.

Lemma eqb_eq (a b : str) : eqb a b = true <-> a = b.
Proof.
  revert b; induction a as [|x a IH]; intros [|y b]; simpl; split;
    try congruence; try reflexivity; intro H.
  - apply andb_true_iff in H as [H1 H2].
    apply char_eqb_eq in H1. apply IH in H2. congruence.
  - injection H as -> ->. apply andb_true_iff; split.
    + now apply char_eqb_eq.
    + now apply IH.
Qed.

Lemma eqb_refl (a : str) : eqb a a = true.
Proof. now apply eqb_eq. Qed.

Lemma mem_In (x : str) (l : list str) : mem x l = true <-> In x l.
Proof.
  unfold mem. rewrite existsb_exists. split.
  - intros (y & Hy & E). apply eqb_eq in E. now subst.
  - intro H. exists x. split; [assumption | apply eqb_refl].
Qed.

Lemma slice_from_0 (s : str) (e : nat) : slice s 0 e = firstn e s.
Proof. unfold slice. now rewrite Nat.sub_0_r. Qed.

(** ** Numerals *)

Lemma read_digits_uint d : forall acc,
  read_digits acc (of_string (NilEmpty.string_of_uint d))
  = Some (Nat.of_uint_acc d acc).
Proof.
  induction d; intro acc; simpl; try reflexivity;
    rewrite IHd; rewrite Nat.tail_mul_spec; f_equal; f_equal; lia.
Qed.

Lemma nzhead_no_zero d : match Decimal.nzhead d with
                         | Decimal.D0 _ => False
                         | _ => True
                         end.
Proof. induction d; simpl; trivial. Qed.

Lemma unorm_shape d :
  Decimal.unorm d <> Decimal.Nil
  /\ (forall d', Decimal.unorm d = Decimal.D0 d' -> d' = Decimal.Nil).
Proof.
  unfold Decimal.unorm. pose proof (nzhead_no_zero d) as H.
  destruct (Decimal.nzhead d); split; try discriminate; try contradiction.
  intros d' E. now injection E as <-.
Qed.

Lemma to_uint_normal n : Nat.to_uint n = Decimal.unorm (Nat.to_uint n).
Proof.
  rewrite <- (Unsigned.to_of (Nat.to_uint n)). now rewrite Unsigned.of_to.
Qed.

Lemma of_nat_numeral n : numeral_of n (of_nat n).
Proof.
  unfold numeral_of, of_nat.
  destruct (unorm_shape (Nat.to_uint n)) as [Hn Hz].
  rewrite <- to_uint_normal in Hn, Hz. split; [|split].
  - destruct (Nat.to_uint n); try discriminate. now elim Hn.
  - rewrite read_digits_uint. f_equal.
    change (Nat.of_uint_acc (Nat.to_uint n) 0) with (Nat.of_uint (Nat.to_uint n)).
    apply Unsigned.of_to.
  - destruct (Nat.to_uint n) as [|d| | | | | | | | |] eqn:E; simpl;
      intros s' H; try discriminate.
    injection H as <-. now rewrite (Hz d eq_refl).
Qed.

Lemma msg_unexpected_text name line :
  unexpected_text name line (msg_unexpected name line).
Proof. exists (of_nat line). split; [apply of_nat_numeral | reflexivity]. Qed.

Lemma msg_mismatched_text n1 l1 n2 l2 :
  mismatched_text n1 l1 n2 l2 (msg_mismatched n1 l1 n2 l2).
Proof.
  exists (of_nat l1), (of_nat l2).
  split; [apply of_nat_numeral|]. split; [apply of_nat_numeral | reflexivity].
Qed.

Lemma msg_unclosed_text name line :
  unclosed_text name line (msg_unclosed name line).
Proof. exists (of_nat line). split; [apply of_nat_numeral | reflexivity]. Qed.


(** ** The matcher is sound *)

Lemma star_sound p k s i c res :
  star p k s i c = Some res ->
  exists s' i' c', matches (Star p) s i c s' i' c' /\ k s' i' c' = Some res.
Proof.
  revert i; induction s as [|x s IH]; intros i H; simpl in H.
  - exists [], i, c. split; [constructor | assumption].
  - destruct (p x) eqn:Hp.
    + destruct (star p k s (S i) c) eqn:E.
      * injection H as <-. apply IH in E as (s' & i' & c' & M & K).
        exists s', i', c'. split; [now constructor | assumption].
      * exists (x :: s), i, c. split; [constructor | assumption].
    + exists (x :: s), i, c. split; [constructor | assumption].
Qed.

Lemma star_lazy_sound p k s i c res :
  star_lazy p k s i c = Some res ->
  exists s' i' c', matches (StarLazy p) s i c s' i' c' /\ k s' i' c' = Some res.
Proof.
  revert i; induction s as [|x s IH]; intros i H; simpl in H.
  - destruct (k [] i c) eqn:K; [|discriminate].
    exists [], i, c. split; [constructor | congruence].
  - destruct (k (x :: s) i c) eqn:K.
    + exists (x :: s), i, c. split; [constructor | congruence].
    + destruct (p x) eqn:Hp; [|discriminate].
      apply IH in H as (s' & i' & c' & M & K').
      exists s', i', c'. split; [now constructor | assumption].
Qed.

Lemma run_sound r : forall k s i c res,
  run r k s i c = Some res ->
  exists s' i' c', matches r s i c s' i' c' /\ k s' i' c' = Some res.
Proof.
  induction r as [a|p|r1 IH1 r2 IH2|r IH|p|p|n r IH]; intros k s i c res H;
    simpl in H.
  - destruct s as [|x s]; [discriminate|].
    destruct (char_eqb x a) eqn:E; [|discriminate].
    apply char_eqb_eq in E; subst x.
    exists s, (S i), c. split; [constructor | assumption].
  - destruct s as [|x s]; [discriminate|].
    destruct (p x) eqn:E; [|discriminate].
    exists s, (S i), c. split; [now constructor | assumption].
  - apply IH1 in H as (s1 & i1 & c1 & M1 & H).
    apply IH2 in H as (s2 & i2 & c2 & M2 & H).
    exists s2, i2, c2. split; [econstructor; eassumption | assumption].
  - destruct (run r k s i c) eqn:E.
    + injection H as <-. apply IH in E as (s' & i' & c' & M & K).
      exists s', i', c'. split; [now apply M_opt_some | assumption].
    + exists s, i, c. split; [apply M_opt_none | assumption].
  - now apply star_sound.
  - now apply star_lazy_sound.
  - apply IH in H as (s' & i' & c' & M & K).
    exists s', i', ((n, (i, i')) :: c'). split; [now constructor | assumption].
Qed.

(** Every match [finditer] yields was found by [match_at] at its own start
    offset in the subject. *)
Lemma finditer_from_sound r s : forall i skip m,
  In m (finditer_from r s i skip) ->
  exists pre s0, s = pre ++ s0 /\ match_at r s0 (i + List.length pre) = Some m.
Proof.
  induction s as [|x s IH]; intros i skip m H; simpl in H.
  - destruct skip; [|contradiction].
    destruct (match_at r [] i) eqn:E; [|contradiction].
    destruct H as [<-|[]]. exists [], []. simpl. now rewrite Nat.add_0_r.
  - assert (Tail : forall k, In m (finditer_from r s (S i) k) ->
        exists pre s0, x :: s = pre ++ s0 /\
                       match_at r s0 (i + List.length pre) = Some m).
    { intros k Hk. apply IH in Hk as (pre & s0 & -> & Hm).
      exists (x :: pre), s0. simpl. split; [reflexivity|].
      now replace (i + S (List.length pre)) with (S i + List.length pre) by lia. }
    destruct skip as [|n]; [|now apply Tail in H].
    destruct (match_at r (x :: s) i) eqn:E.
    + destruct H as [<-|H]; [|now apply Tail in H].
      exists [], (x :: s). simpl. now rewrite Nat.add_0_r.
    + now apply Tail in H.
Qed.

Lemma finditer_sound r content m :
  In m (finditer r content) ->
  exists pre s0, content = pre ++ s0 /\ match_at r s0 (List.length pre) = Some m.
Proof. intro H. now apply finditer_from_sound in H. Qed.

(** ** Inversion of [matches] *)

Lemma matches_lit_inv a s i c s' i' c' :
  matches (Lit a) s i c s' i' c' -> s = a :: s' /\ i' = S i /\ c' = c.
Proof. inversion 1; subst; auto. Qed.

Lemma matches_set_inv p s i c s' i' c' :
  matches (Set_ p) s i c s' i' c' ->
  exists x, p x = true /\ s = x :: s' /\ i' = S i /\ c' = c.
Proof. inversion 1; subst; eauto. Qed.

Lemma matches_cat_inv r1 r2 s i c s2 i2 c2 :
  matches (Cat r1 r2) s i c s2 i2 c2 ->
  exists s1 i1 c1,
    matches r1 s i c s1 i1 c1 /\ matches r2 s1 i1 c1 s2 i2 c2.
Proof. inversion 1; subst; eauto. Qed.

Lemma matches_opt_inv r s i c s' i' c' :
  matches (Opt r) s i c s' i' c' ->
  matches r s i c s' i' c' \/ (s' = s /\ i' = i /\ c' = c).
Proof. inversion 1; subst; auto. Qed.

Lemma matches_grp_inv n r s i c s' i' c' :
  matches (Grp n r) s i c s' i' c' ->
  exists c0, matches r s i c s' i' c0 /\ c' = (n, (i, i')) :: c0.
Proof. inversion 1; subst; eauto. Qed.

Lemma matches_star_inv p s i c s' i' c' :
  matches (Star p) s i c s' i' c' ->
  exists w, forallb p w = true /\ s = w ++ s' /\ i' = i + List.length w /\ c' = c.
Proof.
  intro H. remember (Star p) as r eqn:R.
  induction H; try discriminate; injection R as ->.
  - exists []. simpl. repeat split; lia.
  - destruct (IHmatches eq_refl) as (w & Hw & -> & -> & ->).
    exists (x :: w). simpl. rewrite H, Hw. repeat split; lia.
Qed.

Lemma matches_plus_inv p s i c s' i' c' :
  matches (Plus p) s i c s' i' c' ->
  exists x w, p x = true /\ forallb p w = true /\ s = x :: w ++ s'
              /\ i' = S i + List.length w /\ c' = c.
Proof.
  intro H. apply matches_cat_inv in H as (s1 & i1 & c1 & H1 & H2).
  apply matches_set_inv in H1 as (x & Hx & -> & -> & ->).
  apply matches_star_inv in H2 as (w & Hw & -> & -> & ->).
  exists x, w. auto.
Qed.

(** ** The shape of a tag match *)

Lemma isspace_not_gt x : isspace x = true -> not_gt x = true.
Proof.
  intro H. unfold not_gt. destruct (char_eqb x (chr ">")) eqn:E; [|reflexivity].
  apply char_eqb_eq in E. subst x. discriminate H.
Qed.

Lemma spaces_not_gt w : forallb isspace w = true -> forallb not_gt w = true.
Proof.
  induction w as [|x w IH]; simpl; [reflexivity|].
  intro H. apply andb_true_iff in H as [Hx Hw].
  now rewrite (isspace_not_gt _ Hx), IH.
Qed.

Lemma tag_re_parts :
  tag_re = Cat (Lit (chr "<"))
          (Cat (Grp 1 (Opt (Lit (chr "/"))))
          (Cat (Grp 2 (Plus name_char))
          (Cat (Opt attrs_re) close_re))).
Proof. reflexivity. Qed.

(** *** Priorities: what the greedy and the lazy star try first *)

(** A greedy star that can take all of [w] and no more, and after which the
    rest of the pattern succeeds, returns that success. *)
Lemma star_hit p (k : cont) w s' c res : forall i,
  forallb p w = true ->
  (forall x t, s' = x :: t -> p x = false) ->
  k s' (i + List.length w) c = Some res ->
  star p k (w ++ s') i c = Some res.
Proof.
  induction w as [|y w IH]; intros i Hw Hs K; simpl in *.
  - rewrite Nat.add_0_r in K. destruct s' as [|x t]; [assumption|].
    simpl. now rewrite (Hs x t eq_refl).
  - apply andb_true_iff in Hw as [Hy Hw]. rewrite Hy.
    rewrite (IH (S i)); [reflexivity | assumption | assumption|].
    now replace (S i + List.length w) with (i + S (List.length w)) by lia.
Qed.

(** A lazy star stops at the first offset where the rest of the pattern
    succeeds: it has failed at every offset before. *)
Lemma star_lazy_first p (k : cont) s c res : forall i,
  star_lazy p k s i c = Some res ->
  exists u s',
    s = u ++ s' /\ forallb p u = true
    /\ k s' (i + List.length u) c = Some res
    /\ forall u1 x u2, u = u1 ++ x :: u2 ->
         k (x :: u2 ++ s') (i + List.length u1) c = None.
Proof.
  induction s as [|x s IH]; intros i H; simpl in H.
  - destruct (k [] i c) eqn:K; [|discriminate]. injection H as ->.
    exists [], []. simpl. rewrite Nat.add_0_r. repeat split; try assumption.
    intros [|? ?] ? ? E; discriminate E.
  - destruct (k (x :: s) i c) eqn:K.
    + injection H as ->. exists [], (x :: s). simpl. rewrite Nat.add_0_r.
      repeat split; try assumption. intros [|? ?] ? ? E; discriminate E.
    + destruct (p x) eqn:Hp; [|discriminate].
      apply IH in H as (u & s' & -> & Hu & Ks & Min).
      exists (x :: u), s'. simpl. rewrite Hp, Hu.
      replace (i + S (List.length u)) with (S i + List.length u) by lia.
      repeat split; try assumption.
      intros [|z u1] y u2 E; simpl in E; injection E as <- ->.
      * simpl. now rewrite Nat.add_0_r.
      * simpl. rewrite <- (Min u1 y u2 eq_refl). f_equal. lia.
Qed.

(** *** The end of a tag: group 3 and ">" *)

Lemma close_inv s j c res :
  run close_re accept s j c = Some res ->
  exists g3 ws s',
    forallb isspace ws = true /\ (g3 = ws \/ g3 = chr "/" :: ws)
    /\ s = g3 ++ chr ">" :: s'
    /\ res = (j + List.length g3 + 1, (3, (j, j + List.length g3)) :: c).
Proof.
  intro H. apply run_sound in H as (s' & e & c' & M & K).
  unfold accept in K. injection K as <-.
  apply matches_cat_inv in M as (s5 & i5 & c5 & M5 & M).
  apply matches_lit_inv in M as (-> & -> & ->).
  apply matches_grp_inv in M5 as (c0 & M5 & ->).
  apply matches_cat_inv in M5 as (s6 & i6 & c6 & M6 & M5).
  apply matches_star_inv in M5 as (ws & Hws & -> & -> & ->).
  apply matches_opt_inv in M6 as [M6|(E1 & E2 & E3)].
  - apply matches_lit_inv in M6 as (-> & -> & ->).
    exists (chr "/" :: ws), ws, s'. simpl. repeat split; auto.
    nat_eq.
  - subst. exists ws, ws, s'. repeat split; auto. nat_eq.
Qed.

Lemma close_slash ws rest j c :
  forallb isspace ws = true ->
  run close_re accept (chr "/" :: ws ++ chr ">" :: rest) j c
  = Some (j + S (List.length ws) + 1, (3, (j, j + S (List.length ws))) :: c).
Proof.
  intro H. unfold close_re. cbn [run].
  change (char_eqb (chr "/") (chr "/")) with true. cbn iota.
  erewrite star_hit; [reflexivity | exact H | |].
  - intros x t E. injection E as <- _. reflexivity.
  - cbn [run]. change (char_eqb (chr ">") (chr ">")) with true. cbn iota.
    unfold accept. nat_eq.
Qed.

(** *** The attribute segment *)

Lemma spaces_no_slash a ws :
  forallb isspace (a ++ chr "/" :: ws) = true -> False.
Proof.
  rewrite forallb_app. simpl. intro H.
  apply andb_true_iff in H as [_ H]. discriminate H.
Qed.

Lemma attrs_inv (k : cont) s j c res :
  run (Opt attrs_re) k s j c = Some res ->
  exists at_ s',
    s = at_ ++ s' /\ forallb not_gt at_ = true
    /\ k s' (j + List.length at_) c = Some res
    /\ forall a ws,
         at_ = a ++ chr "/" :: ws -> forallb isspace ws = true ->
         k (chr "/" :: ws ++ s') (j + List.length a) c = None.
Proof.
  intro H. cbn [run] in H.
  change (run attrs_re k s j c)
    with (run (Plus isspace) (star_lazy not_gt k) s j c) in H.
  destruct (run (Plus isspace) (star_lazy not_gt k) s j c) eqn:E.
  - injection H as ->. apply run_sound in E as (s1 & i1 & c1 & M & L).
    apply matches_plus_inv in M as (y & v & Hy & Hv & -> & -> & ->).
    apply star_lazy_first in L as (u & s' & -> & Hu & K & Min).
    exists (y :: v ++ u), s'. simpl.
    rewrite <- app_assoc, forallb_app, Hu, (isspace_not_gt _ Hy),
      (spaces_not_gt _ Hv), length_app.
    split; [reflexivity|]. split; [reflexivity|]. split.
    + rewrite <- K. f_equal. lia.
    + intros a ws E Hws.
      change (y :: v ++ u) with ((y :: v) ++ u) in E.
      apply app_eq_app in E as (l & [[E1 E2]|[E1 E2]]).
      * destruct l as [|z l].
        -- simpl in E2. rewrite app_nil_r in E1. subst a u.
           rewrite <- (Min [] (chr "/") ws eq_refl). simpl. f_equal. lia.
        -- exfalso. simpl in E2. injection E2 as <- _.
           assert (Hyv : forallb isspace (y :: v) = true)
             by (simpl; now rewrite Hy, Hv).
           rewrite E1 in Hyv. now apply spaces_no_slash in Hyv.
      * subst a u. rewrite <- (Min l (chr "/") ws eq_refl).
        f_equal. simpl. rewrite length_app. lia.
  - exists [], s. simpl. rewrite Nat.add_0_r.
    repeat split; try assumption.
    intros [|? ?] ? Q; discriminate Q.
Qed.

(** *** The whole tag *)

Lemma split_at_last (p : char -> bool) x a1 w1 a2 w2 :
  a1 ++ x :: w1 = a2 ++ x :: w2 ->
  p x = false -> forallb p w1 = true -> forallb p w2 = true -> w1 = w2.
Proof.
  intros E Hx H1 H2.
  apply app_eq_app in E as (l & [[E1 E2]|[E1 E2]]);
    destruct l as [|z l]; simpl in E2; injection E2 as ?; subst;
    try reflexivity; exfalso;
    [ rewrite forallb_app in H2; simpl in H2
    | rewrite forallb_app in H1; simpl in H1 ];
    rewrite Hx, andb_false_r in *; discriminate.
Qed.

Lemma tag_run_inv s i res :
  run tag_re accept s i [] = Some res ->
  exists t s',
    tag_ok t /\ s = tag_chars t s' /\ res = (tag_end i t, tag_caps i t).
Proof.
  rewrite tag_re_parts. intro H.
  change (run (Lit (chr "<"))
            (run (Grp 1 (Opt (Lit (chr "/"))))
               (run (Grp 2 (Plus name_char))
                  (run (Opt attrs_re) (run close_re accept)))) s i []
          = Some res) in H.
  apply run_sound in H as (s1 & i1 & c1 & M1 & H).
  apply matches_lit_inv in M1 as (-> & -> & ->).
  apply run_sound in H as (s2 & i2 & c2 & M2 & H).
  apply matches_grp_inv in M2 as (c2' & M2 & ->).
  apply run_sound in H as (s3 & i3 & c3 & M3 & H).
  apply matches_grp_inv in M3 as (c3' & M3 & ->).
  apply matches_plus_inv in M3 as (x & w & Hx & Hw & -> & -> & ->).
  assert (exists g1, (g1 = [] \/ g1 = [chr "/"]) /\ s1 = g1 ++ x :: w ++ s3
                     /\ i2 = S i + List.length g1 /\ c2' = [])
    as (g1 & Hg1 & -> & -> & ->).
  { apply matches_opt_inv in M2 as [M2|(E1 & E2 & E3)].
    - apply matches_lit_inv in M2 as (-> & -> & ->).
      exists [chr "/"]. simpl. repeat split; auto; lia.
    - subst. exists []. simpl. repeat split; auto; lia. }
  apply attrs_inv in H as (at_ & s4 & -> & Hat & H & Min).
  apply close_inv in H as (g3 & ws & s' & Hws & Hg3 & -> & ->).
  exists {| t_slash := g1; t_name := x :: w; t_attrs := at_; t_close := g3 |}, s'.
  split; [|split].
  - constructor; simpl.
    + assumption.
    + split; [discriminate | now rewrite Hx, Hw].
    + assumption.
    + now exists ws.
    + intros a ws' E Hws'. destruct Hg3 as [->| ->].
      * exfalso. apply app_eq_app in E as (l & [[E1 E2]|[E1 E2]]).
        -- destruct l as [|z l]; simpl in E2.
           ++ subst ws. discriminate Hws.
           ++ injection E2 as <- ->. subst at_.
              rewrite forallb_app in Hws'. apply andb_true_iff in Hws' as [Hl _].
              specialize (Min a l eq_refl Hl).
              rewrite app_assoc in Min.
              rewrite close_slash in Min; [discriminate|].
              now rewrite forallb_app, Hl, Hws.
        -- subst ws. now apply spaces_no_slash in Hws.
      * f_equal. eapply (split_at_last isspace); [exact E | reflexivity | |];
          assumption.
  - reflexivity.
  - unfold tag_end, tag_caps. simpl. nat_eq.
Qed.

Lemma match_at_run r s i m :
  match_at r s i = Some m ->
  m_start m = i /\ run r accept s i [] = Some (m_end m, m_caps m).
Proof.
  unfold match_at. destruct (run r accept s i []) as [[e c]|]; [|discriminate].
  intro H. injection H as <-. split; reflexivity.
Qed.

(** ** Matches of the pattern in a text *)

Lemma slice_app (s u w v : str) (lo hi : nat) :
  s = u ++ w ++ v ->
  lo = List.length u -> hi = List.length u + List.length w ->
  slice s lo hi = w.
Proof.
  intros -> -> ->. unfold slice.
  rewrite skipn_app, skipn_all, Nat.sub_diag. simpl.
  replace (List.length u + List.length w - List.length u) with (List.length w + 0) by lia.
  rewrite firstn_app_2. simpl. apply app_nil_r.
Qed.

Lemma finditer_tag content m :
  In m (finditer tag_re content) ->
  exists pre t rest,
    tag_ok t /\ content = pre ++ tag_chars t rest /\ m = tag_match pre t.
Proof.
  intro H. apply finditer_sound in H as (pre & s0 & -> & H).
  apply match_at_run in H as (Hs & H).
  apply tag_run_inv in H as (t & s' & Ht & -> & E).
  exists pre, t, s'. split; [assumption | split; [reflexivity|]].
  destruct m as [a b c]; simpl in *. unfold tag_match. injection E as -> ->.
  now subst.
Qed.

Section Groups.

Variables (pre rest : str) (t : tag_text).

Let content := pre ++ tag_chars t rest.
Let m := tag_match pre t.

Lemma group1 : group content m 1 = Some (t_slash t).
Proof.
  unfold group, m. simpl. f_equal.
  apply (@slice_app _ (pre ++ [chr "<"]) _
           (t_name t ++ t_attrs t ++ t_close t ++ chr ">" :: rest)).
  - unfold content, tag_chars. now rewrite <- app_assoc.
  - rewrite length_app. simpl. lia.
  - rewrite length_app. simpl. lia.
Qed.

Lemma group2 : group content m 2 = Some (t_name t).
Proof.
  unfold group, m. simpl. f_equal.
  apply (@slice_app _ (pre ++ chr "<" :: t_slash t) _
           (t_attrs t ++ t_close t ++ chr ">" :: rest)).
  - unfold content, tag_chars. now rewrite <- app_assoc.
  - rewrite length_app. simpl. lia.
  - rewrite length_app. simpl. lia.
Qed.

Lemma group3 : group content m 3 = Some (t_close t).
Proof.
  unfold group, m. simpl. f_equal.
  apply (@slice_app _ (pre ++ chr "<" :: t_slash t ++ t_name t ++ t_attrs t) _
           (chr ">" :: rest)).
  - unfold content, tag_chars. rewrite <- app_assoc. simpl.
    now rewrite <- !app_assoc.
  - rewrite length_app. simpl. rewrite !length_app. lia.
  - rewrite length_app. simpl. rewrite !length_app. lia.
Qed.

Lemma classify_tag : classify content m = Ok (tag_token pre t).
Proof.
  unfold classify, get_group. rewrite group1, group2, group3. simpl.
  unfold tag_token. do 2 f_equal.
  unfold count. rewrite slice_from_0. unfold content.
  now rewrite firstn_app, firstn_all, Nat.sub_diag, firstn_0, app_nil_r.
Qed.


End Groups.

(** [strip] on what group 3 can hold. *)
Lemma lstrip_spaces (ws r : str) :
  forallb isspace ws = true -> lstrip (ws ++ r) = lstrip r.
Proof.
  induction ws as [|x ws IH]; simpl; [reflexivity|].
  intro H. apply andb_true_iff in H as [Hx Hw]. rewrite Hx. now apply IH.
Qed.

Lemma forallb_rev (p : char -> bool) (w : str) :
  forallb p (rev w) = forallb p w.
Proof.
  induction w as [|x w IH]; simpl; [reflexivity|].
  rewrite forallb_app, IH. simpl. rewrite andb_true_r. apply andb_comm.
Qed.

Lemma strip_slash_spaces ws :
  forallb isspace ws = true -> strip (chr "/" :: ws) = of_string "/".
Proof.
  intro H. unfold strip. change (lstrip (chr "/" :: ws)) with (chr "/" :: ws).
  unfold rstrip. simpl rev. rewrite lstrip_spaces by now rewrite forallb_rev.
  reflexivity.
Qed.

(** ** The loop *)

Lemma process_skipped t st : kind_of t = Skipped -> process t st = Ok st.
Proof.
  unfold kind_of, process. destruct (is_self_closing t); [reflexivity|].
  destruct (is_closing t); discriminate.
Qed.

Lemma process_opening t st :
  kind_of t = Opening -> process t st = Ok (append (record_of t) st).
Proof.
  unfold kind_of, process. destruct (is_self_closing t); [discriminate|].
  destruct (is_closing t); [discriminate | reflexivity].
Qed.

Lemma process_closing_empty t st :
  kind_of t = Closing -> stack st = [] ->
  process t st = Ok (print (msg_unexpected (tag_name t) (line_num t)) st).
Proof.
  unfold kind_of, process. destruct (is_self_closing t); [discriminate|].
  destruct (is_closing t); [|discriminate]. now intros _ ->.
Qed.

Lemma process_closing_pop t st last_tag last_line rest :
  kind_of t = Closing -> stack st = (last_tag, last_line) :: rest ->
  process t st =
    Ok {| stack := rest;
          stdout := stdout st ++
            (if eqb last_tag (tag_name t) then []
             else [msg_mismatched last_tag last_line (tag_name t) (line_num t)])
       |}.
Proof.
  unfold kind_of, process. destruct (is_self_closing t); [discriminate|].
  destruct (is_closing t); [|discriminate]. intros _ E.
  unfold pop. rewrite E. simpl.
  destruct (eqb last_tag (tag_name t)); simpl; [|reflexivity].
  now rewrite app_nil_r.
Qed.

Lemma kind_cases t :
  kind_of t = Skipped \/ kind_of t = Opening \/ kind_of t = Closing.
Proof. destruct (kind_of t); auto. Qed.

Lemma process_ok t st : exists st', process t st = Ok st'.
Proof.
  destruct (kind_cases t) as [K|[K|K]].
  - rewrite process_skipped by assumption. eauto.
  - rewrite process_opening by assumption. eauto.
  - destruct (stack st) as [|[lt ll] rest] eqn:E.
    + rewrite process_closing_empty by assumption. eauto.
    + erewrite process_closing_pop by eassumption. eauto.
Qed.

Lemma process_all_ok ts : forall st, exists st', process_all ts st = Ok st'.
Proof.
  induction ts as [|t ts IH]; intro st; simpl; [eauto|].
  destruct (process_ok t st) as (st1 & ->). simpl. apply IH.
Qed.

Lemma process_all_app a b st :
  process_all (a ++ b) st = (st' <- process_all a st ;; process_all b st').
Proof.
  revert st; induction a as [|t a IH]; intro st; simpl; [reflexivity|].
  destruct (process t st); simpl; [apply IH | reflexivity].
Qed.

Lemma loop_tokens content ms : forall ts st,
  classify_all content ms = Ok ts ->
  loop content ms st = process_all ts st.
Proof.
  induction ms as [|m ms IH]; intros ts st H; simpl in H.
  - injection H as <-. reflexivity.
  - unfold body. simpl. unfold body.
    destruct (classify content m) as [t|] eqn:E; [|discriminate]. simpl in *.
    destruct (classify_all content ms) as [ts'|] eqn:E'; [|discriminate].
    simpl in H. injection H as <-. simpl.
    destruct (process t st); simpl; [now apply IH | reflexivity].
Qed.

Lemma classify_found content m :
  In m (finditer tag_re content) -> exists t, classify content m = Ok t.
Proof.
  intro H. apply finditer_tag in H as (pre & t & rest & _ & -> & ->).
  rewrite classify_tag. eauto.
Qed.

Lemma classify_all_ok content ms :
  (forall m, In m ms -> exists t, classify content m = Ok t) ->
  exists ts, classify_all content ms = Ok ts.
Proof.
  induction ms as [|m ms IH]; intro H; simpl; [eauto|].
  destruct (H m (or_introl eq_refl)) as (t & ->). simpl.
  destruct IH as (ts & ->); [intros; apply H; now right|]. simpl. eauto.
Qed.

Lemma tokens_ok content : exists ts, tokens content = Ok ts.
Proof. apply classify_all_ok. intros m. apply classify_found. Qed.

Lemma drain_spec stk : forall out,
  drain stk out = out ++ map unclosed_of stk.
Proof.
  induction stk as [|[tag line] stk IH]; intro out; simpl.
  - now rewrite app_nil_r.
  - rewrite IH, <- app_assoc. reflexivity.
Qed.

Lemma scan_tokens content ts st :
  tokens content = Ok ts -> process_all ts init = Ok st ->
  scan content = Ok (stdout st ++ map unclosed_of (stack st)).
Proof.
  intros Ht Hp. unfold scan. erewrite loop_tokens by exact Ht. rewrite Hp. simpl.
  now rewrite drain_spec.
Qed.

(** ** Well-formed input *)

Lemma state_eta st : {| stack := stack st; stdout := stdout st |} = st.
Proof. now destruct st. Qed.

Lemma wf_process ts :
  WellFormed ts -> forall st, process_all ts st = Ok st.
Proof.
  induction 1 as [|t w K _ IH|o c w v Ko Kc E _ IHw _ IHv]; intro st.
  - reflexivity.
  - simpl. rewrite process_skipped by assumption. apply IH.
  - simpl. rewrite process_opening by assumption. simpl.
    rewrite process_all_app, IHw. simpl.
    erewrite process_closing_pop by (try eassumption; reflexivity).
    simpl. rewrite E, eqb_refl, app_nil_r, state_eta. apply IHv.
Qed.

(** C1: a text whose tags are well formed (every opening tag closed by a
    closing tag of the same name, properly nested, self-closing and void tags
    left aside) makes the run print nothing. *)
Theorem well_formed_no_diagnostics content ts :
  tokens content = Ok ts -> WellFormed ts -> scan content = Ok [].
Proof.
  intros Ht Hw.
  now rewrite (scan_tokens content Ht (wf_process Hw init)).
Qed.

Lemma well_formed_no_diagnostics_witness :
  let content := of_string "<div><br><span></span></div>" in
  let ts := [opening_tok "div" 1; skipped_tok false "br" 1;
             opening_tok "span" 1; closing_tok "span" 1;
             closing_tok "div" 1] in
  tokens content = Ok ts /\ WellFormed ts /\ scan content = Ok [].
Proof.
  intros content ts.
  assert (Ht : tokens content = Ok ts) by (vm_compute; reflexivity).
  assert (Hw : WellFormed ts).
  { apply (@wf_pair (opening_tok "div" 1) (closing_tok "div" 1)
             [skipped_tok false "br" 1; opening_tok "span" 1;
              closing_tok "span" 1] []); try reflexivity.
    - apply wf_skip; [reflexivity|].
      apply (@wf_pair (opening_tok "span" 1) (closing_tok "span" 1) [] []);
        try reflexivity; apply wf_nil.
    - apply wf_nil. }
  split; [exact Ht | split; [exact Hw|]].
  exact (well_formed_no_diagnostics content Ht Hw).
Defined.

(** ** Closing tags *)

(** C2, the claim as stated fails: in ["<div></br>"] the token of ["</br>"]
    is a closing token scanned while the stack holds [div], and the stack is
    left as it is: tags of the void set are skipped before the closing branch
    is reached. *)
Lemma closing_void_tag_does_not_pop :
  let content := of_string "<div></br>" in
  let o := opening_tok "div" 1 in
  let c := skipped_tok true "br" 1 in
  let st := {| stack := [record_of o]; stdout := [] |} in
  tokens content = Ok [o; c]
  /\ process o init = Ok st
  /\ is_closing c = true /\ stack st <> []
  /\ process c st = Ok st.
Proof.
  cbv zeta. repeat split; try (vm_compute; reflexivity). discriminate.
Qed.

(** C2, amended: a closing token that is not self-closing (no explicit marker,
    name outside the void set), scanned while the stack is not empty, pops the
    top record; exactly one mismatch line naming the opened tag with its line
    and the closing tag with its line is printed when the names differ, none
    when they agree, and the popped record is not pushed back.  The line is
    "Error: Mismatched tag. Opened <", the opened name, "> at line ", its line
    in decimal, ", closed </", the closing name, "> at line " and its line in
    decimal. *)
Theorem closing_pops_top t st last_tag last_line rest :
  is_closing t = true -> is_self_closing t = false ->
  stack st = (last_tag, last_line) :: rest ->
  exists st',
    process t st = Ok st'
    /\ stack st' = rest
    /\ (last_tag <> tag_name t ->
        stdout st' = stdout st ++
          [msg_mismatched last_tag last_line (tag_name t) (line_num t)])
    /\ (last_tag = tag_name t -> stdout st' = stdout st)
    /\ (last_tag <> tag_name t ->
        exists l,
          stdout st' = stdout st ++ [l]
          /\ mismatched_text last_tag last_line (tag_name t) (line_num t) l).
Proof.
  intros Hc Hs E.
  assert (K : kind_of t = Closing) by (unfold kind_of; now rewrite Hs, Hc).
  erewrite process_closing_pop by eassumption.
  eexists. split; [reflexivity|]. simpl. split; [reflexivity|].
  destruct (eqb last_tag (tag_name t)) eqn:Q.
  - apply eqb_eq in Q. split; [intro N; now elim N|].
    split; [intros _; apply app_nil_r | intro N; now elim N].
  - split; [reflexivity|]. split; [intro N; apply eqb_eq in N; congruence|].
    intros _. eexists. split; [reflexivity | apply msg_mismatched_text].
Qed.

Lemma closing_pops_top_witness :
  let t := closing_tok "div" 1 in
  let st := {| stack := [(of_string "span", 1); (of_string "div", 1)];
               stdout := [] |} in
  exists st',
    process t st = Ok st'
    /\ stack st' = [(of_string "div", 1)]
    /\ (of_string "span" <> tag_name t ->
        stdout st' = stdout st ++
          [msg_mismatched (of_string "span") 1 (tag_name t) (line_num t)])
    /\ (of_string "span" = tag_name t -> stdout st' = stdout st)
    /\ (of_string "span" <> tag_name t ->
        exists l,
          stdout st' = stdout st ++ [l]
          /\ mismatched_text (of_string "span") 1 (tag_name t) (line_num t) l).
Proof.
  intros t st.
  apply (@closing_pops_top t st (of_string "span") 1 [(of_string "div", 1)]);
    reflexivity.
Defined.

(** C4, the claim as stated fails: ["</br>"] alone is a closing tag scanned
    while the stack is empty, and nothing is printed for it. *)
Lemma closing_void_tag_not_reported :
  let content := of_string "</br>" in
  let c := skipped_tok true "br" 1 in
  tokens content = Ok [c]
  /\ is_closing c = true /\ stack init = []
  /\ process c init = Ok init
  /\ scan content = Ok [].
Proof. cbv zeta. repeat split; vm_compute; reflexivity. Qed.

(** C4, amended: a closing tag that is not self-closing (no explicit marker,
    name outside the void set), scanned while the stack is empty, prints
    exactly one unexpected-closing-tag line naming the tag and its line, and
    leaves the stack as it is.  The line is "Error: Unexpected closing tag </",
    the name, "> at line " and the line in decimal. *)
Theorem closing_on_empty_stack t st :
  is_closing t = true -> is_self_closing t = false -> stack st = [] ->
  exists st',
    process t st = Ok st'
    /\ stdout st' = stdout st ++ [msg_unexpected (tag_name t) (line_num t)]
    /\ stack st' = stack st
    /\ exists l,
         stdout st' = stdout st ++ [l]
         /\ unexpected_text (tag_name t) (line_num t) l.
Proof.
  intros Hc Hs E.
  assert (K : kind_of t = Closing) by (unfold kind_of; now rewrite Hs, Hc).
  rewrite process_closing_empty by assumption.
  eexists. split; [reflexivity|]. split; [reflexivity|].
  split; [reflexivity|].
  eexists. split; [reflexivity | apply msg_unexpected_text].
Qed.

Lemma closing_on_empty_stack_witness :
  let t := closing_tok "p" 1 in
  exists st',
    process t init = Ok st'
    /\ stdout st' = stdout init ++ [msg_unexpected (tag_name t) (line_num t)]
    /\ stack st' = stack init
    /\ exists l,
         stdout st' = stdout init ++ [l]
         /\ unexpected_text (tag_name t) (line_num t) l.
Proof.
  intro t. apply (@closing_on_empty_stack t init); reflexivity.
Defined.

(** ** Self-closing and void tags *)

(** C5: a tag with the explicit self-close marker, or with a name of the void
    set, goes through the loop body without any effect: nothing is pushed,
    nothing is popped, nothing is printed, whatever the stack holds. *)
Theorem self_closing_skipped content m name g3 st :
  group content m 2 = Some name -> group content m 3 = Some g3 ->
  strip g3 = of_string "/" \/ In name void_tags ->
  body content m st = Ok st.
Proof.
  intros H2 H3 H. unfold body, classify, get_group. rewrite H2, H3.
  assert (S : eqb (strip g3) (of_string "/") || mem name void_tags = true).
  { apply orb_true_iff. destruct H as [H|H].
    - left. now apply eqb_eq.
    - right. now apply mem_In. }
  unfold bind, process. cbn [is_self_closing]. now rewrite S.
Qed.

Lemma self_closing_skipped_witness :
  let content := of_string "<p><img>" in
  let m := {| m_start := 3; m_end := 8;
              m_caps := [(3, (7, 7)); (2, (4, 7)); (1, (4, 4))] |} in
  let st := {| stack := [(of_string "p", 1)]; stdout := [] |} in
  finditer tag_re content
    = [{| m_start := 0; m_end := 3;
          m_caps := [(3, (2, 2)); (2, (1, 2)); (1, (1, 1))] |}; m]
  /\ body content m st = Ok st.
Proof.
  intros content m st. split; [vm_compute; reflexivity|].
  apply (@self_closing_skipped content m (of_string "img") [] st).
  - vm_compute; reflexivity.
  - vm_compute; reflexivity.
  - right. simpl. auto.
Defined.

(** ** Totality *)

Lemma scan_ok content : exists out, scan content = Ok out.
Proof.
  destruct (tokens_ok content) as (ts & Ht).
  destruct (process_all_ok ts init) as (st & Hp).
  rewrite (scan_tokens content Ht Hp). eauto.
Qed.

(** C8: on every text the run completes and yields a list of lines, no
    statement of the loop or of the final drain raises; [analyze_jsx] raises
    only when the file cannot be read, and then at the read. *)
Theorem scan_completes (fs : str -> option str) (file_path : str) :
  (forall content, exists out, scan content = Ok out)
  /\ (forall content, fs file_path = Some content ->
        exists out, analyze_jsx fs file_path = Ok out)
  /\ (forall e, analyze_jsx fs file_path = Raise e <->
                fs file_path = None /\ e = OSError).
Proof.
  split; [exact scan_ok|]. unfold analyze_jsx. split.
  - intros content ->. apply scan_ok.
  - intro e. destruct (fs file_path) as [content|].
    + destruct (scan_ok content) as (out & ->).
      split; [discriminate | intros [? _]; discriminate].
    + split; [intro H; injection H as <-; auto | intros [_ ->]; reflexivity].
Qed.

(** ** The stack holds the pending opening tags *)

Lemma balanced_process v :
  Balanced v -> forall st,
  exists st', process_all v st = Ok st' /\ stack st' = stack st.
Proof.
  induction 1 as [|t K|o c w Ko Kc _ IH|u v _ IHu _ IHv]; intro st.
  - exists st. split; reflexivity.
  - simpl. rewrite process_skipped by assumption. exists st. split; reflexivity.
  - simpl. rewrite process_opening by assumption. simpl.
    rewrite process_all_app.
    destruct (IH (append (record_of o) st)) as (st1 & -> & E1). simpl.
    simpl in E1. unfold record_of in E1.
    erewrite process_closing_pop by eassumption.
    eexists. split; reflexivity.
  - rewrite process_all_app. destruct (IHu st) as (st1 & -> & E1). simpl.
    destruct (IHv st1) as (st2 & -> & E2). exists st2. split; congruence.
Qed.

Lemma settled_process u :
  Settled u -> forall st, stack st = [] ->
  exists st', process_all u st = Ok st' /\ stack st' = [].
Proof.
  induction 1 as [u B|u c v _ IH Kc B]; intros st E.
  - destruct (balanced_process B st) as (st' & H & E'). exists st'.
    split; congruence.
  - rewrite process_all_app. destruct (IH st E) as (st1 & -> & E1). simpl.
    rewrite process_closing_empty by assumption. simpl.
    destruct (balanced_process B
                (print (msg_unexpected (tag_name c) (line_num c)) st1))
      as (st2 & -> & E2).
    exists st2. split; [reflexivity|]. simpl in E2. congruence.
Qed.

Lemma pending_process ts stk :
  Pending ts stk -> forall st, stack st = [] ->
  exists st', process_all ts st = Ok st' /\ stack st' = stk.
Proof.
  induction 1 as [u S|u o v stk _ IH Ko B]; intros st E.
  - now apply settled_process.
  - rewrite process_all_app. destruct (IH st E) as (st1 & -> & E1). simpl.
    rewrite process_opening by assumption. simpl.
    destruct (balanced_process B (append (record_of o) st1)) as (st2 & -> & E2).
    exists st2. split; [reflexivity|]. simpl in E2. congruence.
Qed.

Lemma settled_app u w : Settled u -> Balanced w -> Settled (u ++ w).
Proof.
  intros [u' B|u' c v S Kc B] Bw.
  - apply set_bal. now apply bal_app.
  - rewrite <- app_assoc. simpl. apply set_stray; try assumption.
    now apply bal_app.
Qed.

Lemma pending_app u w stk : Pending u stk -> Balanced w -> Pending (u ++ w) stk.
Proof.
  intros [u' S|u' o v stk' P Ko B] Bw.
  - apply pend_none. now apply settled_app.
  - rewrite <- app_assoc. simpl. apply pend_open; try assumption.
    now apply bal_app.
Qed.

Lemma pending_step u stk t st st' :
  Pending u stk -> stack st = stk -> process t st = Ok st' ->
  Pending (u ++ [t]) (stack st').
Proof.
  intros P E H. destruct (kind_cases t) as [K|[K|K]].
  - rewrite process_skipped in H by assumption. injection H as <-.
    rewrite E. apply pending_app; [assumption | now apply bal_skip].
  - rewrite process_opening in H by assumption. injection H as <-. simpl.
    rewrite E. apply pend_open; [assumption | assumption | apply bal_nil].
  - destruct P as [u S|u o v stk P Ko B].
    + rewrite process_closing_empty in H by assumption. injection H as <-.
      simpl. rewrite E. apply pend_none.
      apply set_stray; [assumption | assumption | apply bal_nil].
    + unfold record_of in E.
      erewrite process_closing_pop in H by eassumption. injection H as <-.
      simpl. rewrite <- app_assoc. simpl.
      apply pending_app; [assumption | now apply bal_pair].
Qed.

Lemma pending_after ts :
  forall st, process_all ts init = Ok st -> Pending ts (stack st).
Proof.
  induction ts as [|t ts IH] using rev_ind; intros st H.
  - injection H as <-. apply pend_none, set_bal, bal_nil.
  - rewrite process_all_app in H.
    destruct (process_all ts init) as [st1|] eqn:E1; [|discriminate].
    simpl in H. destruct (process t st1) as [st2|] eqn:E2; [|discriminate].
    injection H as <-.
    eapply pending_step; [apply IH; reflexivity | reflexivity | exact E2].
Qed.

Lemma pending_iff ts st :
  process_all ts init = Ok st ->
  forall stk, Pending ts stk <-> stk = stack st.
Proof.
  intros H stk. split.
  - intro P. destruct (pending_process P init eq_refl) as (st' & H' & E).
    congruence.
  - intros ->. now apply pending_after.
Qed.

Lemma classify_all_firstn content k : forall ms ts,
  classify_all content ms = Ok ts ->
  classify_all content (firstn k ms) = Ok (firstn k ts).
Proof.
  induction k as [|k IH]; intros ms ts H; [reflexivity|].
  destruct ms as [|m ms]; simpl in H.
  - injection H as <-. reflexivity.
  - destruct (classify content m) as [t|] eqn:E; [|discriminate]. simpl in H.
    destruct (classify_all content ms) as [ts'|] eqn:E'; [|discriminate].
    injection H as <-. simpl. rewrite E. simpl.
    now rewrite (IH ms ts' E').
Qed.

(** C7: after any number [k] of iterations of the loop, the stack holds the
    records of exactly those opening tags among the first [k] tokens that no
    closing tag among them is paired with, the innermost on top. *)
Theorem stack_is_pending content k :
  exists ts st,
    tokens content = Ok ts
    /\ loop content (firstn k (finditer tag_re content)) init = Ok st
    /\ forall stk, Pending (firstn k ts) stk <-> stk = stack st.
Proof.
  destruct (tokens_ok content) as (ts & Ht).
  destruct (process_all_ok (firstn k ts) init) as (st & Hp).
  exists ts, st. split; [assumption|]. split.
  - erewrite loop_tokens by (apply classify_all_firstn; exact Ht). exact Hp.
  - now apply pending_iff.
Qed.

(** ** The final drain *)

Lemma unclosed_is_unclosed r : is_unclosed_msg (unclosed_of r) = true.
Proof. reflexivity. Qed.

Lemma process_no_unclosed t st st' :
  process t st = Ok st' ->
  Forall (fun l => is_unclosed_msg l = false) (stdout st) ->
  Forall (fun l => is_unclosed_msg l = false) (stdout st').
Proof.
  intros H F. destruct (kind_cases t) as [K|[K|K]].
  - rewrite process_skipped in H by assumption. now injection H as <-.
  - rewrite process_opening in H by assumption. now injection H as <-.
  - destruct (stack st) as [|[lt ll] rest] eqn:E.
    + rewrite process_closing_empty in H by assumption. injection H as <-.
      simpl. apply Forall_app. split; [assumption|].
      constructor; [reflexivity | constructor].
    + erewrite process_closing_pop in H by eassumption. injection H as <-.
      simpl. apply Forall_app. split; [assumption|].
      destruct (eqb lt (tag_name t)); [constructor|].
      constructor; [reflexivity | constructor].
Qed.

Lemma process_all_no_unclosed ts : forall st st',
  process_all ts st = Ok st' ->
  Forall (fun l => is_unclosed_msg l = false) (stdout st) ->
  Forall (fun l => is_unclosed_msg l = false) (stdout st').
Proof.
  induction ts as [|t ts IH]; intros st st' H F; simpl in H.
  - now injection H as <-.
  - destruct (process t st) as [st1|] eqn:E; [|discriminate]. simpl in H.
    eapply IH; [exact H|]. eapply process_no_unclosed; eassumption.
Qed.

Lemma filter_none (p : str -> bool) l :
  Forall (fun x => p x = false) l -> filter p l = [].
Proof.
  induction 1 as [|x l Hx _ IH]; simpl; [reflexivity|]. now rewrite Hx.
Qed.

Lemma filter_unclosed stk :
  filter is_unclosed_msg (map unclosed_of stk) = map unclosed_of stk.
Proof.
  induction stk as [|r stk IH]; [reflexivity|].
  cbn [map filter]. rewrite unclosed_is_unclosed. now rewrite IH.
Qed.

Lemma unclosed_of_texts stk :
  Forall2 (fun r l => unclosed_text (fst r) (snd r) l)
          stk (map unclosed_of stk).
Proof.
  induction stk as [|r stk IH]; simpl; constructor; [|assumption].
  apply msg_unclosed_text.
Qed.

(** C3: when the loop is over, the run prints one unclosed-tag line per
    record left on the stack and no other such line; they come from the top
    of the stack down, that is the tag opened last comes first; each line is
    "Error: Unclosed tag <", the name of the record, "> opened at line " and
    the line of the record in decimal; the records are those of the opening
    tags still open, with the name and the line of each. *)
Theorem unclosed_tags_reported content :
  exists ts st out,
    tokens content = Ok ts
    /\ loop content (finditer tag_re content) init = Ok st
    /\ scan content = Ok out
    /\ out = stdout st ++ map unclosed_of (stack st)
    /\ filter is_unclosed_msg out = map unclosed_of (stack st)
    /\ List.length (filter is_unclosed_msg out) = List.length (stack st)
    /\ Forall2 (fun r l => unclosed_text (fst r) (snd r) l)
               (stack st) (filter is_unclosed_msg out)
    /\ Pending ts (stack st).
Proof.
  destruct (tokens_ok content) as (ts & Ht).
  destruct (process_all_ok ts init) as (st & Hp).
  assert (F : filter is_unclosed_msg (stdout st ++ map unclosed_of (stack st))
              = map unclosed_of (stack st)).
  { rewrite filter_app, filter_unclosed, filter_none; [reflexivity|].
    eapply process_all_no_unclosed; [exact Hp | constructor]. }
  exists ts, st, (stdout st ++ map unclosed_of (stack st)).
  split; [assumption|]. split; [now erewrite loop_tokens by exact Ht|].
  split; [now apply scan_tokens with ts|]. split; [reflexivity|].
  split; [exact F|]. split; [now rewrite F, length_map|].
  split; [rewrite F; apply unclosed_of_texts|].
  now apply pending_after.
Qed.

(** ** Line numbers *)

Lemma line_of_pre (pre s : str) :
  line_of (pre ++ s) (List.length pre) = count1 newline pre + 1.
Proof.
  unfold line_of.
  rewrite firstn_app, firstn_all, Nat.sub_diag, firstn_0, app_nil_r. lia.
Qed.

Lemma classify_all_Forall2 content ms : forall ts,
  classify_all content ms = Ok ts ->
  Forall2 (fun m t => classify content m = Ok t) ms ts.
Proof.
  induction ms as [|m ms IH]; intros ts H; simpl in H.
  - injection H as <-. constructor.
  - destruct (classify content m) as [t|] eqn:E; [|discriminate]. simpl in H.
    destruct (classify_all content ms) as [ts'|] eqn:E'; [|discriminate].
    injection H as <-. constructor; [assumption | now apply IH].
Qed.

Lemma Forall2_In_l {A B} (R : A -> B -> Prop) (P : A -> Prop) l l' :
  Forall2 R l l' -> (forall a, In a l -> P a) ->
  Forall2 (fun a b => P a /\ R a b) l l'.
Proof.
  induction 1 as [|a b l l' Hab _ IH]; intro Hin; constructor.
  - split; [apply Hin; now left | assumption].
  - apply IH. intros; apply Hin; now right.
Qed.

Lemma tokens_found content ts :
  tokens content = Ok ts ->
  Forall2 (tag_found content) (finditer tag_re content) ts.
Proof.
  intro H. apply classify_all_Forall2 in H.
  apply Forall2_In_l with (P := fun m => In m (finditer tag_re content)) in H;
    [|auto].
  revert H. apply Forall2_impl. intros m t [Hin Hc].
  apply finditer_tag in Hin as (pre & tt & rest & Hok & -> & ->).
  rewrite classify_tag in Hc. injection Hc as <-.
  exists pre, tt, rest. auto.
Qed.








(** ** Letter case *)

(** C9: names are compared as they are written.  ["<IMG>"] is not a void tag:
    it is pushed and reported as unclosed, where ["<img>"] is skipped; and
    ["<Div></div>"] is a mismatch, where ["<div></div>"] is a pair. *)
Theorem tag_names_are_case_sensitive :
  tokens (of_string "<IMG>") = Ok [opening_tok "IMG" 1]
  /\ loop (of_string "<IMG>") (finditer tag_re (of_string "<IMG>")) init
     = Ok {| stack := [(of_string "IMG", 1)]; stdout := [] |}
  /\ scan (of_string "<IMG>")
     = Ok [of_string "Error: Unclosed tag <IMG> opened at line 1"]
  /\ tokens (of_string "<img>") = Ok [skipped_tok false "img" 1]
  /\ scan (of_string "<img>") = Ok []
  /\ scan (of_string "<Div></div>")
     = Ok [of_string
             "Error: Mismatched tag. Opened <Div> at line 1, closed </div> at line 1"]
  /\ scan (of_string "<div></div>") = Ok [].
Proof. repeat split; vm_compute; reflexivity. Qed.

(** ** A "/" before the ">" *)

Lemma name_char_not_space x : name_char x = true -> isspace x = true -> False.
Proof.
  unfold name_char, isspace, in_range, char_eqb.
  change (chr "a") with 97%N. change (chr "z") with 122%N.
  change (chr "A") with 65%N. change (chr "Z") with 90%N.
  change (chr "0") with 48%N. change (chr "9") with 57%N.
  change (chr ":") with 58%N.
  rewrite !orb_true_iff, !andb_true_iff, !N.leb_le, !N.eqb_eq. lia.
Qed.

(** The text a tag match covers. *)
Lemma tag_match_text pre t rest :
  slice (pre ++ tag_chars t rest)
        (m_start (tag_match pre t)) (m_end (tag_match pre t))
  = chr "<" :: t_slash t ++ t_name t ++ t_attrs t ++ t_close t ++ [chr ">"].
Proof.
  apply (@slice_app _ pre _ rest).
  - unfold tag_chars. simpl. now rewrite <- !app_assoc.
  - reflexivity.
  - simpl. unfold tag_end. rewrite !length_app. simpl. lia.
Qed.

(** When the text of a tag ends with "/", whitespace and ">", the "/" and the
    whitespace are what group 3 holds. *)
Lemma close_of_text t body_ ws :
  tag_ok t ->
  chr "<" :: t_slash t ++ t_name t ++ t_attrs t ++ t_close t ++ [chr ">"]
  = body_ ++ chr "/" :: ws ++ [chr ">"] ->
  forallb isspace ws = true ->
  t_close t = chr "/" :: ws.
Proof.
  intros [_ [Hne Hname] _ _ Kept] E Hws.
  change (chr "<" :: t_slash t ++ t_name t ++ t_attrs t ++ t_close t ++ [chr ">"])
    with ((chr "<" :: t_slash t) ++ t_name t ++ t_attrs t ++ t_close t ++ [chr ">"])
    in E.
  change (body_ ++ chr "/" :: ws ++ [chr ">"])
    with (body_ ++ (chr "/" :: ws) ++ [chr ">"]) in E.
  rewrite !app_assoc in E. apply app_inj_tail in E as [E _].
  rewrite <- !app_assoc in E.
  rewrite (app_assoc (chr "<" :: t_slash t)) in E.
  rewrite (app_assoc _ (t_attrs t)) in E. rewrite <- app_assoc in E.
  apply app_eq_app in E as (l & [[E1 E2]|[E1 E2]]).
  - destruct l as [|z l].
    + simpl in E2. apply (Kept [] ws); [symmetry; exact E2 | assumption].
    + exfalso. simpl in E2. injection E2 as <- ->.
      destruct (exists_last Hne) as (n' & zl & En). rewrite En in *.
      rewrite forallb_app in Hname. simpl in Hname.
      apply andb_true_iff in Hname as [_ Hz].
      rewrite andb_true_r in Hz. rewrite app_assoc in E1.
      destruct l as [|q l] using rev_ind.
      * apply app_inj_tail in E1 as [_ ->]. discriminate Hz.
      * clear IHl. rewrite app_comm_cons, app_assoc in E1.
        apply app_inj_tail in E1 as [_ ->].
        rewrite <- app_assoc, forallb_app in Hws. simpl in Hws.
        apply andb_true_iff in Hws as [_ Hq].
        apply andb_true_iff in Hq as [Hq _].
        exact (name_char_not_space _ Hz Hq).
  - apply (Kept l ws); assumption.
Qed.

(** C10: a tag whose text ends with "/", any whitespace and ">" has the "/"
    in group 3, is classified as self-closing and goes through the loop body
    without being pushed (and without any other effect). *)
Theorem spaced_slash_is_self_closing content m body_ ws st :
  In m (finditer tag_re content) ->
  slice content (m_start m) (m_end m) = body_ ++ chr "/" :: ws ++ [chr ">"] ->
  forallb isspace ws = true ->
  group content m 3 = Some (chr "/" :: ws)
  /\ (exists t, classify content m = Ok t /\ is_self_closing t = true)
  /\ body content m st = Ok st.
Proof.
  intros H Text Hws.
  apply finditer_tag in H as (pre & t & rest & Ht & -> & ->).
  rewrite tag_match_text in Text.
  pose proof (close_of_text _ _ Ht Text Hws) as Hc.
  assert (S : is_self_closing (tag_token pre t) = true).
  { simpl. rewrite Hc, strip_slash_spaces by assumption. reflexivity. }
  split; [now rewrite group3, Hc|]. split.
  - exists (tag_token pre t). split; [apply classify_tag | exact S].
  - unfold body. rewrite classify_tag. unfold bind, process. now rewrite S.
Qed.

Lemma spaced_slash_is_self_closing_witness :
  let content := of_string "<div><span / >" in
  let m := {| m_start := 5; m_end := 14;
              m_caps := [(3, (11, 13)); (2, (6, 10)); (1, (6, 6))] |} in
  let st := {| stack := [(of_string "div", 1)]; stdout := [] |} in
  group content m 3 = Some (of_string "/ ")
  /\ (exists t, classify content m = Ok t /\ is_self_closing t = true)
  /\ body content m st = Ok st.
Proof.
  intros content m st.
  apply (@spaced_slash_is_self_closing content m (of_string "<span ")
           (of_string " ") st).
  - vm_compute. right. left. reflexivity.
  - vm_compute. reflexivity.
  - vm_compute. reflexivity.
Defined.

(** ** The scenarios of the specification *)

Example scenario_nested_pair :
  scan (of_string "<div><span></span></div>") = Ok [].
Proof. vm_compute. reflexivity. Qed.

Example scenario_mismatch_then_unclosed :
  scan (of_string "<div><span></div>")
  = Ok [of_string
          "Error: Mismatched tag. Opened <span> at line 1, closed </div> at line 1";
        of_string "Error: Unclosed tag <div> opened at line 1"].
Proof. vm_compute. reflexivity. Qed.

Example scenario_void_tag :
  scan (of_string "<img src=" ++ [34%N] ++ of_string "x.png" ++ [34%N]
          ++ of_string ">") = Ok [].
Proof. vm_compute. reflexivity. Qed.

Example scenario_stray_closing_tag :
  scan (of_string "</p>")
  = Ok [of_string "Error: Unexpected closing tag </p> at line 1"].
Proof. vm_compute. reflexivity. Qed.

Example scenario_two_lines :
  scan (of_string "<a><b>" ++ [newline] ++ of_string "</a>")
  = Ok [of_string
          "Error: Mismatched tag. Opened <b> at line 1, closed </a> at line 2";
        of_string "Error: Unclosed tag <a> opened at line 1"].
Proof. vm_compute. reflexivity. Qed.

Example scenario_attributes_and_marker :
  tokens (of_string "<ns:a href=x>" ++ [newline] ++ of_string "<b c=d />"
            ++ [newline] ++ of_string "</ns:a>")
  = Ok [opening_tok "ns:a" 1; skipped_tok false "b" 2; closing_tok "ns:a" 3].
Proof. vm_compute. reflexivity. Qed.

(** * Further properties *)

(** ** Order of the matches *)

Lemma match_at_start r s i m : match_at r s i = Some m -> m_start m = i.
Proof. intro H. now apply match_at_run in H as [H _]. Qed.

Lemma finditer_from_ordered r s : forall i skip,
  Forall (fun m => i + skip <= m_start m) (finditer_from r s i skip)
  /\ StronglySorted (fun a b => m_end a <= m_start b) (finditer_from r s i skip).
Proof.
  induction s as [|x s IH]; intros i skip; simpl.
  - destruct skip; [|split; constructor].
    destruct (match_at r [] i) eqn:E; [|split; constructor].
    apply match_at_start in E. split.
    + constructor; [lia | constructor].
    + constructor; constructor.
  - destruct skip as [|n].
    + destruct (match_at r (x :: s) i) eqn:E.
      * apply match_at_start in E.
        destruct (IH (S i) (m_end r0 - i - 1)) as [F S]. split.
        -- constructor; [lia|]. revert F. apply Forall_impl. intros; lia.
        -- constructor; [assumption|]. revert F. apply Forall_impl.
           intros; lia.
      * destruct (IH (S i) 0) as [F S]. split; [|assumption].
        revert F. apply Forall_impl. intros; lia.
    + destruct (IH (S i) n) as [F S]. split; [|assumption].
      revert F. apply Forall_impl. intros; lia.
Qed.

Lemma Forall2_Forall_r {A B} (R : A -> B -> Prop) (Q : B -> Prop) l l' :
  Forall2 R l l' -> (forall a b, R a b -> Q b) -> Forall Q l'.
Proof. induction 1; intro Himp; constructor; eauto. Qed.

Lemma finditer_found content :
  Forall (fun m => exists pre tt rest,
            tag_ok tt /\ content = pre ++ tag_chars tt rest
            /\ m = tag_match pre tt)
         (finditer tag_re content).
Proof.
  apply Forall_forall. intros m H.
  apply finditer_tag in H as (pre & tt & rest & H). eauto.
Qed.

(** ** Where a match lies *)

Lemma tag_chars_length t rest :
  List.length (tag_chars t rest)
  = S (List.length (t_slash t) + List.length (t_name t)
       + List.length (t_attrs t) + List.length (t_close t) + 1)
    + List.length rest.
Proof. unfold tag_chars. simpl. rewrite !length_app. simpl. lia. Qed.

Lemma finditer_spans content :
  Forall (fun m => m_start m + 3 <= m_end m
                   /\ m_end m <= List.length content)
         (finditer tag_re content).
Proof.
  generalize (finditer_found content). apply Forall_impl.
  intros m (pre & tt & rest & [_ [Hne _] _ _ _] & -> & ->).
  rewrite length_app, tag_chars_length. simpl. unfold tag_end.
  destruct (t_name tt); [now elim Hne|]. simpl. lia.
Qed.

(** X1: the matches come in the order of the text and do not overlap; each
    covers at least three characters of the text. *)
Theorem matches_in_order_disjoint content :
  StronglySorted (fun a b => m_end a <= m_start b) (finditer tag_re content)
  /\ Forall (fun m => m_start m + 3 <= m_end m
                      /\ m_end m <= List.length content)
            (finditer tag_re content).
Proof. split; [apply finditer_from_ordered | apply finditer_spans]. Qed.

Lemma name_char_not_gt x : name_char x = true -> not_gt x = true.
Proof.
  intro H. unfold not_gt. destruct (char_eqb x (chr ">")) eqn:E; [|reflexivity].
  apply char_eqb_eq in E. subst x. discriminate H.
Qed.

Lemma forallb_weaken (p q : char -> bool) w :
  (forall x, p x = true -> q x = true) ->
  forallb p w = true -> forallb q w = true.
Proof.
  intros Hpq. induction w as [|x w IH]; simpl; [reflexivity|].
  intro H. apply andb_true_iff in H as [Hx Hw].
  now rewrite (Hpq x Hx), IH.
Qed.

Lemma tag_inner_not_gt t :
  tag_ok t ->
  forallb not_gt (t_slash t ++ t_name t ++ t_attrs t ++ t_close t) = true.
Proof.
  intros [Hs [_ Hn] Ha (ws & Hws & Hc) _].
  rewrite !forallb_app, Ha, (forallb_weaken _ _ _ name_char_not_gt Hn).
  assert (forallb not_gt (t_slash t) = true) as -> by (destruct Hs as [-> | ->]; reflexivity).
  assert (forallb not_gt (t_close t) = true) as ->; [|reflexivity].
  destruct Hc as [-> | ->]; simpl; now rewrite (spaces_not_gt _ Hws).
Qed.

(** X2: a match starts at a "<" and ends at the first ">" after it. *)
Theorem match_ends_at_first_gt content :
  Forall (fun m => exists w,
            slice content (m_start m) (m_end m) = chr "<" :: w ++ [chr ">"]
            /\ forallb not_gt w = true)
         (finditer tag_re content).
Proof.
  generalize (finditer_found content). apply Forall_impl.
  intros m (pre & tt & rest & Hok & -> & ->).
  exists (t_slash tt ++ t_name tt ++ t_attrs tt ++ t_close tt).
  split; [|now apply tag_inner_not_gt].
  rewrite tag_match_text. now rewrite <- !app_assoc.
Qed.

(** ** What the tokens say about the text *)

(** X3: a tag name is never empty and holds only letters, digits and ":". *)
Theorem tag_names_are_name_chars content :
  exists ts,
    tokens content = Ok ts
    /\ Forall (fun t => tag_name t <> []
                        /\ forallb name_char (tag_name t) = true) ts.
Proof.
  destruct (tokens_ok content) as (ts & Ht). exists ts. split; [assumption|].
  apply tokens_found in Ht. eapply Forall2_Forall_r; [exact Ht|].
  intros m t (pre & tt & rest & [_ Hn _ _ _] & _ & _ & ->). exact Hn.
Qed.

Lemma nth_error_after (pre : str) (x : char) (s : str) :
  nth_error (pre ++ x :: s) (S (List.length pre)) = nth_error s 0.
Proof.
  rewrite nth_error_app2 by lia.
  replace (S (List.length pre) - List.length pre) with 1 by lia. reflexivity.
Qed.

Lemma name_char_not_slash x : name_char x = true -> x <> chr "/".
Proof. intros H ->. discriminate H. Qed.

(** X4: a token is a closing one exactly when the character after its "<" is
    a "/". *)
Theorem closing_iff_slash_after_lt content :
  exists ts,
    tokens content = Ok ts
    /\ Forall2 (fun m t =>
                  is_closing t = true
                  <-> nth_error content (S (m_start m)) = Some (chr "/"))
               (finditer tag_re content) ts.
Proof.
  destruct (tokens_ok content) as (ts & Ht). exists ts. split; [assumption|].
  apply tokens_found in Ht. revert Ht. apply Forall2_impl.
  intros m t (pre & tt & rest & [Hs [Hne Hn] _ _ _] & -> & -> & ->).
  unfold tag_chars. simpl m_start. rewrite nth_error_after. simpl is_closing.
  destruct Hs as [E|E]; rewrite E; simpl.
  - destruct (t_name tt) as [|x w]; [now elim Hne|]. simpl in *.
    apply andb_true_iff in Hn as [Hx _]. apply name_char_not_slash in Hx.
    split; [discriminate | intro H; injection H as ->; now elim Hx].
  - split; reflexivity.
Qed.

Lemma strip_of_spaces ws : forallb isspace ws = true -> strip ws = [].
Proof.
  intro H. unfold strip.
  rewrite <- (app_nil_r ws), lstrip_spaces by assumption. reflexivity.
Qed.

(** X5: a token is self-closing exactly when the text of its tag ends with
    "/", optional whitespace and ">", or its name is one of the six void
    names. *)
Theorem self_closing_iff content :
  exists ts,
    tokens content = Ok ts
    /\ Forall2 (fun m t =>
                  is_self_closing t = true
                  <-> (exists body_ ws,
                          slice content (m_start m) (m_end m)
                          = body_ ++ chr "/" :: ws ++ [chr ">"]
                          /\ forallb isspace ws = true)
                      \/ In (tag_name t) void_tags)
               (finditer tag_re content) ts.
Proof.
  destruct (tokens_ok content) as (ts & Ht). exists ts. split; [assumption|].
  apply tokens_found in Ht. revert Ht. apply Forall2_impl.
  intros m t (pre & tt & rest & Hok & -> & -> & ->).
  rewrite tag_match_text.
  change (is_self_closing (tag_token pre tt))
    with (eqb (strip (t_close tt)) (of_string "/") || mem (t_name tt) void_tags).
  change (tag_name (tag_token pre tt)) with (t_name tt).
  rewrite orb_true_iff, mem_In, eqb_eq. split.
  - intros [H|H]; [left | now right].
    destruct (ok_close Hok) as (ws & Hws & [E|E]).
    + rewrite E, strip_of_spaces in H by assumption. discriminate H.
    + exists (chr "<" :: t_slash tt ++ t_name tt ++ t_attrs tt), ws.
      split; [|assumption]. rewrite E. simpl. now rewrite <- !app_assoc.
  - intros [(body_ & ws & E & Hws)|H]; [left | now right].
    rewrite (close_of_text _ _ Hok E Hws). now apply strip_slash_spaces.
Qed.

(** ** Line numbers along the text *)

Lemma count1_firstn_mono c (s : str) : forall a b,
  a <= b -> count1 c (firstn a s) <= count1 c (firstn b s).
Proof.
  induction s as [|x s IH]; intros a b H.
  - now rewrite !firstn_nil.
  - destruct a as [|a]; [simpl; lia|]. destruct b as [|b]; [lia|].
    simpl. specialize (IH a b). lia.
Qed.

Lemma count1_firstn_le c (s : str) a : count1 c (firstn a s) <= count1 c s.
Proof.
  revert a; induction s as [|x s IH]; intros [|a]; simpl; try lia.
  specialize (IH a). lia.
Qed.

Lemma sorted_Forall2 {A B} (R : A -> B -> Prop) (P : A -> A -> Prop)
      (Q : B -> B -> Prop) l l' :
  (forall a b a' b', R a b -> R a' b' -> P a a' -> Q b b') ->
  Forall2 R l l' -> StronglySorted P l -> StronglySorted Q l'.
Proof.
  intros Himp. induction 1 as [|a b l l' Hab Hl IH]; intro S; [constructor|].
  inversion S as [|? ? S' F]; subst. constructor; [now apply IH|].
  clear IH S S'. induction Hl as [|a' b' l l' Hab' _ IH]; constructor.
  - inversion F; subst. eapply Himp; eassumption.
  - apply IH. now inversion F.
Qed.

Lemma tag_token_line pre tt rest :
  line_num (tag_token pre tt)
  = line_of (pre ++ tag_chars tt rest) (m_start (tag_match pre tt)).
Proof. simpl. now rewrite line_of_pre. Qed.

Lemma finditer_starts_sorted content :
  StronglySorted (fun a b => m_start a <= m_start b) (finditer tag_re content).
Proof.
  pose proof (finditer_spans content) as F.
  destruct (finditer_from_ordered tag_re content 0 0) as [_ S].
  fold (finditer tag_re content) in S.
  induction S as [|m l S IH Fm]; constructor.
  - apply IH. now inversion F.
  - inversion F as [|? ? [Hm _] _]; subst.
    revert Fm. apply Forall_impl. intros; lia.
Qed.

Lemma tokens_line_sorted content ts :
  tokens content = Ok ts ->
  StronglySorted (fun a b => line_num a <= line_num b) ts.
Proof.
  intro Ht. apply tokens_found in Ht.
  eapply sorted_Forall2; [|exact Ht|apply finditer_starts_sorted].
  intros m t m' t' (pre & tt & rest & _ & E & -> & ->)
         (pre' & tt' & rest' & _ & E' & -> & ->) Hle.
  rewrite (tag_token_line pre tt rest), (tag_token_line pre' tt' rest').
  rewrite <- E, <- E'. unfold line_of.
  apply le_n_S. now apply count1_firstn_mono.
Qed.

(** X6: line numbers never go down along the token stream, and lie between 1
    and the number of lines of the text. *)
Theorem line_numbers_monotone content :
  exists ts,
    tokens content = Ok ts
    /\ StronglySorted (fun a b => line_num a <= line_num b) ts
    /\ Forall (fun t => 1 <= line_num t <= 1 + count1 newline content) ts.
Proof.
  destruct (tokens_ok content) as (ts & Ht). exists ts. split; [assumption|].
  split; [now apply tokens_line_sorted with content|].
  apply tokens_found in Ht.
  eapply Forall2_Forall_r; [exact Ht|].
  intros m t (pre & tt & rest & _ & E & -> & ->).
  rewrite (tag_token_line pre tt rest), <- E. unfold line_of.
  pose proof (count1_firstn_le newline content
                (m_start (tag_match pre tt))). lia.
Qed.

(** ** Counting *)

Lemma count_if_app {A} (p : A -> bool) l l' :
  count_if p (l ++ l') = count_if p l + count_if p l'.
Proof. unfold count_if. now rewrite filter_app, length_app. Qed.

Lemma process_tally t st st' u m :
  process t st = Ok st' -> tally st u m ->
  exists u' m',
    tally st' u' m'
    /\ List.length (stack st') + count_if is_closing_tag [t] + u
       = List.length (stack st) + count_if is_opening [t] + u'
    /\ u' + m' <= u + m + count_if is_closing_tag [t].
Proof.
  intros H [Hu Hm Hall]. unfold count_if, is_opening, is_closing_tag. simpl.
  destruct (kind_cases t) as [K|[K|K]]; rewrite K; simpl.
  - rewrite process_skipped in H by assumption. injection H as <-.
    exists u, m. split; [now constructor | lia].
  - rewrite process_opening in H by assumption. injection H as <-.
    exists u, m. split; [now constructor | simpl; lia].
  - destruct (stack st) as [|[lt ll] rest] eqn:E.
    + rewrite process_closing_empty in H by assumption. injection H as <-.
      exists (S u), m. split; [|simpl; rewrite E; simpl; lia].
      constructor; simpl; rewrite ?count_if_app, ?length_app, ?Hu, ?Hm, ?Hall;
        unfold count_if; simpl; lia.
    + erewrite process_closing_pop in H by eassumption. injection H as <-.
      simpl. destruct (eqb lt (tag_name t)).
      * exists u, m. rewrite app_nil_r. split; [now constructor | lia].
      * exists u, (S m). split; [|lia].
        constructor; simpl; rewrite ?count_if_app, ?length_app, ?Hu, ?Hm, ?Hall;
          unfold count_if; simpl; lia.
Qed.

Lemma process_all_tally ts : forall st st' u m,
  process_all ts st = Ok st' -> tally st u m ->
  exists u' m',
    tally st' u' m'
    /\ List.length (stack st') + count_if is_closing_tag ts + u
       = List.length (stack st) + count_if is_opening ts + u'
    /\ u' + m' <= u + m + count_if is_closing_tag ts.
Proof.
  induction ts as [|t ts IH]; intros st st' u m H T; simpl in H.
  - injection H as <-. exists u, m. unfold count_if. simpl.
    split; [assumption | lia].
  - destruct (process t st) as [st1|] eqn:E; [|discriminate]. simpl in H.
    destruct (@process_tally t st st1 u m E T) as (u1 & m1 & T1 & B1 & L1).
    destruct (IH st1 st' u1 m1 H T1) as (u2 & m2 & T2 & B2 & L2).
    exists u2, m2. split; [assumption|].
    change (t :: ts) with ([t] ++ ts). rewrite !count_if_app. lia.
Qed.

Lemma count_unclosed_of (p : str -> bool) stk b :
  (forall r, p (unclosed_of r) = b) ->
  count_if p (map unclosed_of stk) = if b then List.length stk else 0.
Proof.
  intro H. unfold count_if. induction stk as [|r stk IH]; simpl.
  - now destruct b.
  - rewrite H. destruct b; simpl; now rewrite IH.
Qed.

(** X7: the run prints as many unclosed-tag lines as there are more opening
    than closing tags, once the closing tags reported as unexpected are set
    aside; every line is of exactly one of the three kinds; mismatch and
    unexpected lines together are at most one per closing tag, and the whole
    output holds at most one line per tag that is not skipped. *)
Theorem diagnostics_balance content :
  exists ts out,
    tokens content = Ok ts /\ scan content = Ok out
    /\ count_if is_unclosed_msg out + count_if is_closing_tag ts
       = count_if is_opening ts + count_if is_unexpected_msg out
    /\ List.length out
       = count_if is_unexpected_msg out + count_if is_mismatched_msg out
         + count_if is_unclosed_msg out
    /\ count_if is_unexpected_msg out + count_if is_mismatched_msg out
       <= count_if is_closing_tag ts
    /\ List.length out <= count_if is_opening ts + count_if is_closing_tag ts.
Proof.
  destruct (tokens_ok content) as (ts & Ht).
  destruct (process_all_ok ts init) as (st & Hp).
  exists ts, (stdout st ++ map unclosed_of (stack st)).
  split; [assumption|]. split; [now apply scan_tokens with ts|].
  assert (T0 : tally init 0 0) by (constructor; reflexivity).
  destruct (@process_all_tally ts init st 0 0 Hp T0)
    as (u & m & [Hu Hm Hall] & B & L).
  assert (N : count_if is_unclosed_msg (stdout st) = 0).
  { unfold count_if. rewrite filter_none; [reflexivity|].
    eapply process_all_no_unclosed; [exact Hp | constructor]. }
  rewrite !count_if_app, length_app, length_map, Hu, Hm, Hall, N.
  rewrite (@count_unclosed_of is_unclosed_msg (stack st) true) by reflexivity.
  rewrite (@count_unclosed_of is_unexpected_msg (stack st) false) by reflexivity.
  rewrite (@count_unclosed_of is_mismatched_msg (stack st) false) by reflexivity.
  simpl in B. lia.
Qed.

(** ** Silence *)

Lemma wf_app u v : WellFormed u -> WellFormed v -> WellFormed (u ++ v).
Proof.
  induction 1 as [|t w K _ IH|o c w v' Ko Kc E Hw _ _ IH]; intro Hv; simpl.
  - assumption.
  - apply wf_skip; [assumption | now apply IH].
  - rewrite <- app_assoc. simpl. apply wf_pair; try assumption. now apply IH.
Qed.

Lemma open_in_app u w stk : OpenIn u stk -> WellFormed w -> OpenIn (u ++ w) stk.
Proof.
  intros [u' Hu|u' o v stk' P Ko Hv] Hw.
  - apply open_none. now apply wf_app.
  - rewrite <- app_assoc. simpl. apply open_more; try assumption.
    now apply wf_app.
Qed.

Lemma process_stdout t st st' :
  process t st = Ok st' -> exists more, stdout st' = stdout st ++ more.
Proof.
  intro H. destruct (kind_cases t) as [K|[K|K]].
  - rewrite process_skipped in H by assumption. injection H as <-.
    exists []. now rewrite app_nil_r.
  - rewrite process_opening in H by assumption. injection H as <-.
    exists []. simpl. now rewrite app_nil_r.
  - destruct (stack st) as [|[lt ll] rest] eqn:E.
    + rewrite process_closing_empty in H by assumption. injection H as <-.
      simpl. eauto.
    + erewrite process_closing_pop in H by eassumption. injection H as <-.
      simpl. eauto.
Qed.

Lemma silent_step u stk t st st' :
  OpenIn u stk -> stack st = stk -> process t st = Ok st' ->
  stdout st' = [] -> OpenIn (u ++ [t]) (stack st').
Proof.
  intros P E H Hout. destruct (kind_cases t) as [K|[K|K]].
  - rewrite process_skipped in H by assumption. injection H as <-.
    rewrite E. apply open_in_app; [assumption|].
    apply wf_skip; [assumption | apply wf_nil].
  - rewrite process_opening in H by assumption. injection H as <-. simpl.
    rewrite E. apply open_more; [assumption | assumption | apply wf_nil].
  - destruct P as [u Hu|u o v stk P Ko Hv].
    + rewrite process_closing_empty in H by assumption. injection H as <-.
      simpl in Hout. now destruct (stdout st).
    + unfold record_of in E.
      erewrite process_closing_pop in H by eassumption. injection H as <-.
      simpl in *. destruct (eqb (tag_name o) (tag_name t)) eqn:Q.
      * apply eqb_eq in Q. rewrite <- app_assoc. simpl.
        apply open_in_app; [assumption|].
        apply (@wf_pair o t v []); try assumption. apply wf_nil.
      * now destruct (stdout st).
Qed.

Lemma silent_open_in ts :
  forall st, process_all ts init = Ok st -> stdout st = [] ->
  OpenIn ts (stack st).
Proof.
  induction ts as [|t ts IH] using rev_ind; intros st H Hout.
  - injection H as <-. apply open_none, wf_nil.
  - rewrite process_all_app in H.
    destruct (process_all ts init) as [st1|] eqn:E1; [|discriminate].
    simpl in H. destruct (process t st1) as [st2|] eqn:E2; [|discriminate].
    injection H as <-.
    destruct (process_stdout _ _ E2) as (more & Em).
    rewrite Hout in Em. symmetry in Em. apply app_eq_nil in Em as [Em _].
    eapply silent_step; [apply IH; [reflexivity | exact Em]
                        | reflexivity | exact E2 | exact Hout].
Qed.

(** X8: the run prints nothing exactly when the token stream is well
    formed. *)
Theorem silent_iff_well_formed content :
  exists ts,
    tokens content = Ok ts
    /\ (scan content = Ok [] <-> WellFormed ts).
Proof.
  destruct (tokens_ok content) as (ts & Ht). exists ts. split; [assumption|].
  destruct (process_all_ok ts init) as (st & Hp).
  rewrite (scan_tokens content Ht Hp). split.
  - intro H. injection H as H. apply app_eq_nil in H as [Ho Hs].
    apply map_eq_nil in Hs.
    pose proof (silent_open_in ts Hp Ho) as P. rewrite Hs in P.
    now inversion P.
  - intro Hw. rewrite (wf_process Hw init) in Hp. now injection Hp as <-.
Qed.

(** ** Texts without tags *)

Lemma tag_chars_has_both t rest :
  In (chr "<") (tag_chars t rest) /\ In (chr ">") (tag_chars t rest).
Proof.
  unfold tag_chars. split; [now left|]. right.
  rewrite !in_app_iff. do 4 right. now left.
Qed.

(** X9: a text without "<", or without ">", has no tag and makes the run
    print nothing; so does the empty text. *)
Theorem no_angle_bracket_no_output content :
  ~ In (chr "<") content \/ ~ In (chr ">") content ->
  finditer tag_re content = [] /\ tokens content = Ok []
  /\ scan content = Ok [].
Proof.
  intro H.
  assert (E : finditer tag_re content = []).
  { destruct (finditer tag_re content) as [|m l] eqn:E; [reflexivity|].
    exfalso. assert (Hin : In m (finditer tag_re content))
      by (rewrite E; now left).
    apply finditer_tag in Hin as (pre & t & rest & _ & -> & _).
    destruct (tag_chars_has_both t rest) as [Hl Hg].
    destruct H as [H|H]; apply H; apply in_app_iff; now right. }
  unfold tokens, scan. rewrite E. repeat split; reflexivity.
Qed.

Lemma no_angle_bracket_no_output_witness :
  let content := of_string "a < b and div /" in
  finditer tag_re content = [] /\ tokens content = Ok []
  /\ scan content = Ok [].
Proof.
  intro content. apply no_angle_bracket_no_output.
  right. vm_compute. intuition discriminate.
Defined.

(** ** Well-formed stretches *)

(** X11: a well-formed stretch of tokens leaves no trace: with it or without
    it, the tokens around it are processed to the same stack and the same
    lines. *)
Theorem well_formed_stretch_is_neutral u w v st :
  WellFormed w ->
  process_all (u ++ w ++ v) st = process_all (u ++ v) st.
Proof.
  intro Hw. rewrite !process_all_app.
  destruct (process_all u st) as [st1|]; simpl; [|reflexivity].
  now rewrite process_all_app, (wf_process Hw st1).
Qed.

Lemma well_formed_stretch_is_neutral_witness :
  let u := [opening_tok "div" 1] in
  let w := [opening_tok "p" 2; skipped_tok false "br" 2; closing_tok "p" 2] in
  let v := [closing_tok "span" 3] in
  process_all (u ++ w ++ v) init = process_all (u ++ v) init.
Proof.
  intros u w v. apply well_formed_stretch_is_neutral.
  apply (@wf_pair (opening_tok "p" 2) (closing_tok "p" 2)
           [skipped_tok false "br" 2] []); try reflexivity.
  - apply wf_skip; [reflexivity | apply wf_nil].
  - apply wf_nil.
Defined.

(** ** Where the lines come from *)

Lemma justified_snoc ts t d : justified ts d -> justified (ts ++ [t]) d.
Proof.
  destruct d as [c|o c|o]; simpl.
  - intros [H K]. split; [apply in_app_iff; now left | assumption].
  - intros [(a & b & d & ->) H]. split; [|assumption].
    exists a, b, (d ++ [t]). rewrite <- !app_assoc. simpl.
    now rewrite <- app_assoc.
  - intros [H K]. split; [apply in_app_iff; now left | assumption].
Qed.

Lemma backed_snoc ts t stk : backed ts stk -> backed (ts ++ [t]) stk.
Proof.
  intros (os & E & F). exists os. split; [assumption|].
  revert F. apply Forall_impl. intros o [K (a & b & ->)]. split; [assumption|].
  exists a, (b ++ [t]). now rewrite <- app_assoc.
Qed.

Lemma trace_step ts t st st' log :
  process t st = Ok st' ->
  stdout st = map render log -> Forall (justified ts) log ->
  backed ts (stack st) ->
  exists log',
    stdout st' = map render log' /\ Forall (justified (ts ++ [t])) log'
    /\ backed (ts ++ [t]) (stack st').
Proof.
  intros H Eo Fl Bk.
  assert (Fl' : Forall (justified (ts ++ [t])) log)
    by (revert Fl; apply Forall_impl; intro; apply justified_snoc).
  destruct (kind_cases t) as [K|[K|K]].
  - rewrite process_skipped in H by assumption. injection H as <-.
    exists log. auto using backed_snoc.
  - rewrite process_opening in H by assumption. injection H as <-.
    exists log. split; [assumption|]. split; [assumption|].
    apply (backed_snoc t) in Bk. destruct Bk as (os & E & F).
    exists (t :: os). simpl. rewrite E. split; [reflexivity|].
    constructor; [|assumption]. split; [assumption|]. now exists ts, [].
  - destruct (stack st) as [|[lt ll] rest] eqn:E.
    + rewrite process_closing_empty in H by assumption. injection H as <-.
      exists (log ++ [Unexpected t]). simpl. rewrite E, Eo, map_app. simpl.
      split; [reflexivity|]. split.
      * apply Forall_app. split; [assumption|]. constructor; [|constructor].
        simpl. split; [apply in_app_iff; right; now left | assumption].
      * exists []. split; [reflexivity | constructor].
    + erewrite process_closing_pop in H by eassumption. injection H as <-.
      destruct Bk as (os & Eos & F).
      destruct os as [|o os]; [discriminate|]. simpl in Eos.
      injection Eos as -> -> ->. inversion F as [|? ? [Ko (a & b & Ets)] F']; subst.
      simpl.
      assert (Bk' : backed ((a ++ o :: b) ++ [t]) (map record_of os)).
      { apply backed_snoc. exists os. split; [reflexivity | assumption]. }
      destruct (eqb (tag_name o) (tag_name t)) eqn:Q.
      * exists log. rewrite app_nil_r. auto.
      * exists (log ++ [Mismatched o t]). rewrite Eo, map_app. simpl.
        split; [reflexivity|]. split; [|assumption].
        apply Forall_app. split; [assumption|]. constructor; [|constructor].
        simpl. split; [|split; [assumption|split; [assumption|]]].
        -- exists a, b, []. now rewrite <- app_assoc.
        -- intro N. apply eqb_eq in N. congruence.
Qed.

Lemma trace_after ts :
  forall st, process_all ts init = Ok st ->
  exists log,
    stdout st = map render log /\ Forall (justified ts) log
    /\ backed ts (stack st).
Proof.
  induction ts as [|t ts IH] using rev_ind; intros st H.
  - injection H as <-. exists []. split; [reflexivity|].
    split; [constructor|]. exists []. split; [reflexivity | constructor].
  - rewrite process_all_app in H.
    destruct (process_all ts init) as [st1|] eqn:E1; [|discriminate].
    simpl in H. destruct (process t st1) as [st2|] eqn:E2; [|discriminate].
    injection H as <-.
    destruct (IH st1 eq_refl) as (log & Eo & Fl & Bk).
    exact (@trace_step ts t st1 st2 log E2 Eo Fl Bk).
Qed.

(** Facts about the tokens of a text that the diagnostics inherit. *)
Lemma sorted_before {A} (R : A -> A -> Prop) (a : list A) o b c d :
  StronglySorted R (a ++ o :: b ++ c :: d) -> R o c.
Proof.
  induction a as [|x a IH]; simpl; intro S.
  - inversion S as [|? ? _ F]; subst.
    apply Forall_app in F as [_ F]. now inversion F.
  - apply IH. now inversion S.
Qed.

Lemma tokens_not_void content ts :
  tokens content = Ok ts ->
  Forall (fun t => kind_of t <> Skipped -> ~ In (tag_name t) void_tags) ts.
Proof.
  intro Ht. apply tokens_found in Ht.
  eapply Forall2_Forall_r; [exact Ht|].
  intros m t (pre & tt & rest & _ & _ & _ & ->) K Hin.
  apply K. unfold kind_of.
  change (is_self_closing (tag_token pre tt))
    with (eqb (strip (t_close tt)) (of_string "/") || mem (t_name tt) void_tags).
  apply mem_In in Hin. simpl tag_name in Hin.
  now rewrite Hin, orb_true_r.
Qed.

Lemma justified_named ts d t :
  justified ts d -> In t (named d) -> In t ts /\ kind_of t <> Skipped.
Proof.
  destruct d as [c|o c|o]; simpl.
  - intros [H K] [<-|[]]. split; [assumption | congruence].
  - intros [(a & b & d & ->) [Ko [Kc _]]] [<-|[<-|[]]].
    + split; [|congruence]. apply in_app_iff. right. now left.
    + split; [|congruence]. apply in_app_iff. right. right.
      apply in_app_iff. right. now left.
  - intros [H K] [<-|[]]. split; [assumption | congruence].
Qed.

(** X12: every line of the output is one of the three messages about tokens of
    the text: an unexpected line names a closing token; a mismatch line names
    an opening token and a closing token that stands after it, of a
    different name and on the same or a later line; an unclosed line names an
    opening token.  No line names a self-closing or void tag.  Each line is
    the text of its message with the names and, in decimal, the line numbers
    of these tokens. *)
Theorem diagnostics_justified content :
  exists ts log,
    tokens content = Ok ts
    /\ scan content = Ok (map render log)
    /\ Forall (fun d => justified ts d /\ in_order d
                        /\ Forall (fun t => ~ In (tag_name t) void_tags)
                                  (named d)) log
    /\ Forall (fun d => says d (render d)) log.
Proof.
  destruct (tokens_ok content) as (ts & Ht).
  destruct (process_all_ok ts init) as (st & Hp).
  destruct (@trace_after ts st Hp) as (log & Eo & Fl & (os & Es & Fo)).
  exists ts, (log ++ map Unclosed os). split; [assumption|]. split.
  - rewrite (scan_tokens content Ht Hp), Eo, Es, map_app, !map_map.
    reflexivity.
  - split;
      [|apply Forall_forall; intros [c|o c|o] _; simpl;
        [apply msg_unexpected_text | apply msg_mismatched_text
        | apply msg_unclosed_text]].
    assert (J : Forall (justified ts) (log ++ map Unclosed os)).
    { apply Forall_app. split; [assumption|]. apply Forall_map.
      revert Fo. apply Forall_impl. intros o [K (a & b & ->)]. simpl.
      split; [apply in_app_iff; right; now left | assumption]. }
    pose proof (@tokens_line_sorted content ts Ht) as S.
    pose proof (@tokens_not_void content ts Ht) as V. rewrite Forall_forall in V.
    revert J. apply Forall_impl. intros d Hd. split; [assumption|]. split.
    + destruct d as [c|o c|o]; simpl; trivial.
      destruct Hd as [(a & b & e & E) _]. rewrite E in S.
      exact (@sorted_before _ _ a o b c e S).
    + apply Forall_forall. intros t Hin.
      destruct (@justified_named ts d t Hd Hin) as [Ht' K]. now apply V.
Qed.

(** ** The order of the unclosed lines *)

Lemma sorted_app_last {A} (R : A -> A -> Prop) u o v :
  StronglySorted R (u ++ o :: v) ->
  StronglySorted R u /\ Forall (fun x => R x o) u.
Proof.
  induction u as [|x u IH]; simpl; intro S; [split; constructor|].
  inversion S as [|? ? S' F]; subst. destruct (IH S') as [Su Fu].
  apply Forall_app in F as [F1 F2]. split; constructor; trivial.
  now inversion F2.
Qed.

Lemma pending_records ts stk :
  Pending ts stk ->
  Forall (fun r => exists o, In o ts /\ r = record_of o) stk.
Proof.
  induction 1 as [u _|u o v stk _ IH Ko _]; constructor.
  - exists o. split; [apply in_app_iff; right; now left | reflexivity].
  - revert IH. apply Forall_impl. intros r (o' & Hin & ->).
    exists o'. split; [apply in_app_iff; now left | reflexivity].
Qed.

Lemma pending_lines_descend ts stk :
  Pending ts stk ->
  StronglySorted (fun a b => line_num a <= line_num b) ts ->
  StronglySorted (fun a b : record => snd b <= snd a) stk.
Proof.
  induction 1 as [u _|u o v stk P IH Ko _]; intro S; constructor.
  - apply IH. now apply sorted_app_last in S as [S _].
  - apply sorted_app_last in S as [_ F]. rewrite Forall_forall in F.
    generalize (@pending_records u stk P). apply Forall_impl.
    intros r (o' & Hin & ->). simpl. now apply F.
Qed.

(** X13: the unclosed-tag lines come with line numbers that never go up: the
    stack the loop leaves holds its records by falling line number from the
    top, and the run prints them from the top, each with the name and, in
    decimal, the line of its record. *)
Theorem unclosed_lines_descend content :
  exists st out,
    loop content (finditer tag_re content) init = Ok st
    /\ scan content = Ok out
    /\ out = stdout st ++ map unclosed_of (stack st)
    /\ StronglySorted (fun a b : record => snd b <= snd a) (stack st)
    /\ Forall2 (fun r l => unclosed_text (fst r) (snd r) l)
               (stack st) (map unclosed_of (stack st)).
Proof.
  destruct (tokens_ok content) as (ts & Ht).
  destruct (process_all_ok ts init) as (st & Hp).
  exists st, (stdout st ++ map unclosed_of (stack st)).
  split; [now erewrite loop_tokens by exact Ht|].
  split; [now apply scan_tokens with ts|]. split; [reflexivity|].
  split; [|apply unclosed_of_texts].
  apply pending_lines_descend with ts.
  - now apply pending_after.
  - now apply tokens_line_sorted with content.
Qed.

(** ** The matcher finds a match whenever there is one *)

Lemma run_complete r s i c s' i' c' :
  matches r s i c s' i' c' ->
  forall k : cont, k s' i' c' <> None -> run r k s i c <> None.
Proof.
  induction 1 as [a s i c|p x s i c Hp|r1 r2 s i c s1 i1 c1 s2 i2 c2 _ IH1 _ IH2
                 |r s i c s' i' c' _ IH|r s i c|p s i c
                 |p x s i c s' i' c' Hp _ IH|p s i c
                 |p x s i c s' i' c' Hp _ IH|n r s i c s' i' c' _ IH];
    intros k Hk; simpl.
  - unfold char_eqb. now rewrite N.eqb_refl.
  - now rewrite Hp.
  - apply IH1, IH2, Hk.
  - destruct (run r k s i c) eqn:E; [discriminate|]. now elim (IH k Hk).
  - destruct (run r k s i c); [discriminate | assumption].
  - destruct s as [|x s]; simpl; [assumption|].
    destruct (p x); [|assumption].
    destruct (star p k s (S i) c); [discriminate | assumption].
  - rewrite Hp. specialize (IH k Hk). simpl in IH.
    destruct (star p k s (S i) c); [discriminate | contradiction].
  - destruct s as [|x s]; simpl; destruct (k _ i c); try discriminate;
      contradiction.
  - destruct (k (x :: s) i c); [discriminate|]. rewrite Hp.
    exact (IH k Hk).
  - apply IH. exact Hk.
Qed.

Lemma matches_star_all p (w s' : str) c : forall i,
  forallb p w = true -> matches (Star p) (w ++ s') i c s' (i + List.length w) c.
Proof.
  induction w as [|x w IH]; intros i H; simpl.
  - rewrite Nat.add_0_r. apply M_star_nil.
  - apply andb_true_iff in H as [Hx Hw].
    replace (i + S (List.length w)) with (S i + List.length w) by lia.
    apply M_star_cons; [assumption | now apply IH].
Qed.

Lemma matches_lazy_all p (w s' : str) c : forall i,
  forallb p w = true ->
  matches (StarLazy p) (w ++ s') i c s' (i + List.length w) c.
Proof.
  induction w as [|x w IH]; intros i H; simpl.
  - rewrite Nat.add_0_r. apply M_lazy_nil.
  - apply andb_true_iff in H as [Hx Hw].
    replace (i + S (List.length w)) with (S i + List.length w) by lia.
    apply M_lazy_cons; [assumption | now apply IH].
Qed.

Lemma matches_slash g1 (s : str) j c :
  g1 = [] \/ g1 = [chr "/"] ->
  matches (Grp 1 (Opt (Lit (chr "/")))) (g1 ++ s) j c s (j + List.length g1)
          ((1, (j, j + List.length g1)) :: c).
Proof.
  intros [-> | ->]; apply M_grp; simpl.
  - rewrite Nat.add_0_r. apply M_opt_none.
  - replace (j + 1) with (S j) by lia. apply M_opt_some, M_lit.
Qed.

Lemma matches_name name (s : str) j c :
  name <> [] -> forallb name_char name = true ->
  matches (Grp 2 (Plus name_char)) (name ++ s) j c s (j + List.length name)
          ((2, (j, j + List.length name)) :: c).
Proof.
  intros Hne Hn. destruct name as [|x w]; [now elim Hne|]. simpl in Hn.
  apply andb_true_iff in Hn as [Hx Hw]. apply M_grp. unfold Plus. simpl.
  eapply M_cat; [now apply M_set|].
  replace (j + S (List.length w)) with (S j + List.length w) by lia.
  now apply matches_star_all.
Qed.

Lemma matches_close_plain (s : str) j c :
  matches close_re (chr ">" :: s) j c s (S j) ((3, (j, j)) :: c).
Proof.
  unfold close_re. eapply M_cat; [|apply M_lit]. apply M_grp.
  eapply M_cat; [apply M_opt_none | apply M_star_nil].
Qed.

Lemma matches_middle mid rest j c :
  tag_middle mid ->
  exists e c',
    matches (Cat (Opt attrs_re) close_re) (mid ++ chr ">" :: rest) j c
            rest e c'.
Proof.
  intros [Hm [->|[(y & v & -> & Hy)|(ws & -> & Hws)]]].
  - do 2 eexists. eapply M_cat; [apply M_opt_none | apply matches_close_plain].
  - simpl in Hm. apply andb_true_iff in Hm as [_ Hv].
    do 2 eexists. eapply M_cat; [|apply matches_close_plain].
    apply M_opt_some. unfold attrs_re, Plus.
    eapply M_cat; [eapply M_cat; [now apply M_set | apply M_star_nil]|].
    simpl. now apply matches_lazy_all.
  - do 2 eexists. eapply M_cat; [apply M_opt_none|]. unfold close_re.
    eapply M_cat; [|apply M_lit]. apply M_grp.
    eapply M_cat; [apply M_opt_some, M_lit|].
    simpl. now apply matches_star_all.
Qed.

Lemma tag_text_matches g1 name mid rest i :
  g1 = [] \/ g1 = [chr "/"] ->
  name <> [] -> forallb name_char name = true -> tag_middle mid ->
  exists e c,
    matches tag_re (chr "<" :: g1 ++ name ++ mid ++ chr ">" :: rest) i []
            rest e c.
Proof.
  intros Hg Hne Hn Hmid.
  destruct (matches_middle rest
              (S i + List.length g1 + List.length name)
              [(2, (S i + List.length g1,
                    S i + List.length g1 + List.length name));
               (1, (S i, S i + List.length g1))] Hmid) as (e & c & M).
  exists e, c. rewrite tag_re_parts.
  eapply M_cat; [apply M_lit|].
  eapply M_cat; [now apply matches_slash|].
  eapply M_cat; [now apply matches_name | exact M].
Qed.

(** ** Every tag is found *)

Lemma first_split (p : char -> bool) x : forall w1 r1 w2 r2,
  w1 ++ x :: r1 = w2 ++ x :: r2 ->
  forallb p w1 = true -> forallb p w2 = true -> p x = false ->
  w1 = w2 /\ r1 = r2.
Proof.
  induction w1 as [|a w1 IH]; intros r1 [|b w2] r2 E H1 H2 Hx; simpl in *.
  - injection E as <-. auto.
  - injection E as <- _. rewrite Hx in H2. discriminate.
  - injection E as -> _. rewrite Hx in H1. discriminate.
  - injection E as <- E. apply andb_true_iff in H1 as [_ H1].
    apply andb_true_iff in H2 as [_ H2].
    destruct (IH _ _ _ E H1 H2 Hx) as [-> ->]. auto.
Qed.

Lemma span_unique (p : char -> bool) : forall w1 r1 w2 r2,
  w1 ++ r1 = w2 ++ r2 ->
  forallb p w1 = true -> forallb p w2 = true ->
  (forall x t, r1 = x :: t -> p x = false) ->
  (forall x t, r2 = x :: t -> p x = false) ->
  w1 = w2 /\ r1 = r2.
Proof.
  induction w1 as [|a w1 IH]; intros r1 [|b w2] r2 E H1 H2 N1 N2; simpl in *.
  - auto.
  - apply andb_true_iff in H2 as [Hb _].
    rewrite (N1 b (w2 ++ r2) E) in Hb. discriminate.
  - apply andb_true_iff in H1 as [Ha _].
    rewrite (N2 a (w1 ++ r1) (eq_sym E)) in Ha. discriminate.
  - injection E as <- E. apply andb_true_iff in H1 as [_ H1].
    apply andb_true_iff in H2 as [_ H2].
    destruct (IH _ _ _ E H1 H2 N1 N2) as [-> ->]. auto.
Qed.

Lemma not_name_char_after_name (s3 : str) :
  (exists y r, s3 = y :: r /\ (isspace y = true \/ y = chr "/" \/ y = chr ">"))
  \/ s3 = [] ->
  forall x t, s3 = x :: t -> name_char x = false.
Proof.
  intros [(y & r & -> & Hy) | ->] x t E; [|discriminate].
  injection E as <- _. destruct (name_char y) eqn:N; [|reflexivity].
  destruct Hy as [Hy|[Hy|Hy]]; [|subst y; discriminate N..].
  now elim (name_char_not_space _ N Hy).
Qed.

(** Groups 1 and 2 of a match, and the character after the name. *)
Lemma tag_run_name s i e c :
  run tag_re accept s i [] = Some (e, c) ->
  exists g1 name s3,
    s = chr "<" :: g1 ++ name ++ s3
    /\ (g1 = [] \/ g1 = [chr "/"])
    /\ name <> [] /\ forallb name_char name = true
    /\ (forall x t, s3 = x :: t -> name_char x = false)
    /\ lookup 1 c = Some (S i, S i + List.length g1)
    /\ lookup 2 c = Some (S i + List.length g1,
                          S i + List.length g1 + List.length name).
Proof.
  rewrite tag_re_parts. intro H.
  change (run (Lit (chr "<"))
            (run (Grp 1 (Opt (Lit (chr "/"))))
               (run (Grp 2 (Plus name_char))
                  (run (Opt attrs_re) (run close_re accept)))) s i []
          = Some (e, c)) in H.
  apply run_sound in H as (s1 & i1 & c1 & M1 & H).
  apply matches_lit_inv in M1 as (-> & -> & ->).
  apply run_sound in H as (s2 & i2 & c2 & M2 & H).
  apply matches_grp_inv in M2 as (c2' & M2 & ->).
  apply run_sound in H as (s3 & i3 & c3 & M3 & H).
  apply matches_grp_inv in M3 as (c3' & M3 & ->).
  apply matches_plus_inv in M3 as (x & w & Hx & Hw & -> & -> & ->).
  assert (exists g1, (g1 = [] \/ g1 = [chr "/"]) /\ s1 = g1 ++ x :: w ++ s3
                     /\ i2 = S i + List.length g1 /\ c2' = [])
    as (g1 & Hg1 & -> & -> & ->).
  { apply matches_opt_inv in M2 as [M2|(E1 & E2 & E3)].
    - apply matches_lit_inv in M2 as (-> & -> & ->).
      exists [chr "/"]. simpl. repeat split; auto; lia.
    - subst. exists []. simpl. repeat split; auto; lia. }
  assert (Hhead : forall y t, s3 = y :: t -> name_char y = false).
  { apply not_name_char_after_name.
    pose proof H as H'. apply run_sound in H' as (s4 & i4 & c4 & M4 & K).
    apply matches_opt_inv in M4 as [M4|(E1 & E2 & E3)].
    - apply matches_cat_inv in M4 as (s5 & i5 & c5 & M5 & _).
      apply matches_plus_inv in M5 as (y & v & Hy & _ & -> & _).
      left. exists y, (v ++ s5). auto.
    - subst. apply close_inv in K as (g3 & ws & s' & Hws & Hg3 & -> & _).
      left. destruct Hg3 as [-> | ->].
      + destruct ws as [|y ws]; simpl.
        * exists (chr ">"), s'. auto.
        * simpl in Hws. apply andb_true_iff in Hws as [Hy _].
          exists y, (ws ++ chr ">" :: s'). auto.
      + exists (chr "/"), (ws ++ chr ">" :: s'). auto. }
  apply attrs_inv in H as (at_ & s4 & -> & _ & H & _).
  apply close_inv in H as (g3 & ws & s' & _ & _ & -> & E).
  injection E as -> ->.
  exists g1, (x :: w), (at_ ++ g3 ++ chr ">" :: s').
  split; [reflexivity|]. split; [assumption|]. split; [discriminate|].
  split; [simpl; now rewrite Hx, Hw|]. split; [assumption|].
  simpl. split; repeat f_equal; lia.
Qed.

Lemma tag_middle_head mid rest :
  tag_middle mid ->
  forall x t, mid ++ chr ">" :: rest = x :: t -> name_char x = false.
Proof.
  intros [_ H]. apply not_name_char_after_name. left.
  destruct H as [-> |[(y & v & -> & Hy)|(ws & -> & _)]]; simpl.
  - exists (chr ">"), rest. auto.
  - exists y, (v ++ chr ">" :: rest). auto.
  - exists (chr "/"), (ws ++ chr ">" :: rest). auto.
Qed.

(** A text of the shape of a tag is matched at its "<", up to its ">", with
    its "/" as group 1 and its name as group 2. *)
Lemma match_at_tag_text g1 name mid rest i :
  g1 = [] \/ g1 = [chr "/"] ->
  name <> [] -> forallb name_char name = true -> tag_middle mid ->
  exists m,
    match_at tag_re (chr "<" :: g1 ++ name ++ mid ++ chr ">" :: rest) i
    = Some m
    /\ m_end m = S i + List.length g1 + List.length name
                 + List.length mid + 1
    /\ lookup 1 (m_caps m) = Some (S i, S i + List.length g1)
    /\ lookup 2 (m_caps m) = Some (S i + List.length g1,
                                   S i + List.length g1 + List.length name).
Proof.
  intros Hg Hne Hn Hmid.
  destruct (tag_text_matches rest i Hg Hne Hn Hmid) as (e0 & c0 & M).
  pose proof (run_complete M accept) as R.
  unfold match_at.
  destruct (run tag_re accept _ i []) as [[e c]|] eqn:E;
    [|elim R; [discriminate | reflexivity]].
  eexists. split; [reflexivity|]. simpl. clear R M e0 c0.
  pose proof E as E'.
  apply tag_run_inv in E as (t & s' & Hok & Es & Er). injection Er as -> ->.
  apply tag_run_name in E'
    as (g1' & name' & s3 & Es' & Hg' & Hne' & Hn' & Hh & L1 & L2).
  (* the end: both texts stop at the first ">" *)
  assert (El : List.length (t_slash t ++ t_name t ++ t_attrs t ++ t_close t)
               = List.length (g1 ++ name ++ mid)).
  { unfold tag_chars in Es. injection Es as Es.
    assert (Es2 : (g1 ++ name ++ mid) ++ chr ">" :: rest
                  = (t_slash t ++ t_name t ++ t_attrs t ++ t_close t)
                      ++ chr ">" :: s')
      by (rewrite <- !app_assoc; exact Es).
    apply (first_split not_gt) in Es2 as [<- _]; try reflexivity.
    - destruct Hmid as [Hm _].
      rewrite !forallb_app, Hm, (forallb_weaken _ _ _ name_char_not_gt Hn).
      destruct Hg as [-> | ->]; reflexivity.
    - now apply tag_inner_not_gt. }
  (* group 1 and the name *)
  injection Es' as Es'.
  assert (Eg : g1' = g1).
  { destruct name as [|x w]; [now elim Hne|].
    destruct name' as [|x' w']; [now elim Hne'|].
    simpl in Hn, Hn'. apply andb_true_iff in Hn as [Hx _].
    apply andb_true_iff in Hn' as [Hx' _].
    destruct Hg as [-> | ->], Hg' as [-> | ->]; simpl in Es';
      try reflexivity; injection Es' as Ex _; subst; discriminate. }
  subst g1'. apply app_inv_head in Es'.
  apply (span_unique name_char) in Es' as [<- _]; try assumption;
    [|now apply tag_middle_head].
  split; [|split; assumption].
  unfold tag_end. rewrite !length_app in El. lia.
Qed.

Lemma finditer_from_complete r s : forall i skip pre s0 m,
  s = pre ++ s0 -> skip <= List.length pre ->
  match_at r s0 (i + List.length pre) = Some m ->
  In m (finditer_from r s i skip)
  \/ exists m', In m' (finditer_from r s i skip)
                /\ m_start m' < i + List.length pre < m_end m'.
Proof.
  induction s as [|x s IH]; intros i skip pre s0 m E Hs Hm.
  - symmetry in E. apply app_eq_nil in E as [-> ->]. simpl in *.
    assert (skip = 0) as -> by lia. rewrite Nat.add_0_r in Hm.
    rewrite Hm. left. now left.
  - assert (Tail : forall k pre',
               pre = x :: pre' -> k <= List.length pre' ->
               In m (finditer_from r s (S i) k)
               \/ exists m', In m' (finditer_from r s (S i) k)
                             /\ m_start m' < i + List.length pre < m_end m').
    { intros k pre' -> Hk. simpl in E. injection E as E.
      replace (i + List.length (x :: pre')) with (S i + List.length pre')
        in * by (simpl; lia).
      now apply (IH (S i) k pre' s0 m). }
    simpl. destruct skip as [|n].
    + destruct pre as [|y pre'].
      * simpl in *. subst s0. rewrite Nat.add_0_r in Hm. rewrite Hm.
        left. now left.
      * simpl in E. injection E as <- E.
        destruct (match_at r (x :: s) i) as [m0|] eqn:E0.
        -- destruct (le_lt_dec (m_end m0 - i - 1) (List.length pre')) as [L|L].
           ++ destruct (Tail _ pre' eq_refl L) as [H|(m' & H & B)].
              ** left. now right.
              ** right. exists m'. split; [now right | assumption].
           ++ right. exists m0. split; [now left|].
              apply match_at_start in E0. simpl. lia.
        -- apply (Tail 0 pre' eq_refl). lia.
    + destruct pre as [|y pre']; [simpl in Hs; lia|].
      simpl in E. injection E as <- E.
      apply (Tail n pre' eq_refl). simpl in Hs. lia.
Qed.

(** X14: wherever the text holds "<", an optional "/", a name, then nothing or
    whitespace followed by anything but ">" or "/" and whitespace, and ">",
    the scan yields a token for it, from that "<" to that ">", with that name
    and closing exactly when the "/" is there, unless the "<" lies inside an
    earlier match. *)
Theorem every_tag_is_found content pre g1 name mid rest :
  content = pre ++ chr "<" :: g1 ++ name ++ mid ++ chr ">" :: rest ->
  g1 = [] \/ g1 = [chr "/"] ->
  name <> [] -> forallb name_char name = true -> tag_middle mid ->
  (exists m t,
      In m (finditer tag_re content)
      /\ m_start m = List.length pre
      /\ m_end m = List.length pre + 1 + List.length g1 + List.length name
                   + List.length mid + 1
      /\ classify content m = Ok t
      /\ tag_name t = name
      /\ is_closing t = eqb g1 (of_string "/"))
  \/ (exists m', In m' (finditer tag_re content)
                 /\ m_start m' < List.length pre < m_end m').
Proof.
  intros E Hg Hne Hn Hmid.
  destruct (match_at_tag_text rest (List.length pre) Hg Hne Hn Hmid)
    as (m & Hm & He & L1 & L2).
  destruct (@finditer_from_complete tag_re content 0 0 pre _ m E (Nat.le_0_l _) Hm)
    as [Hin|Hcov]; [left | now right].
  assert (G1 : group content m 1 = Some g1).
  { unfold group. rewrite L1. f_equal.
    apply (@slice_app _ (pre ++ [chr "<"]) _
             (name ++ mid ++ chr ">" :: rest)).
    - rewrite E, <- app_assoc. reflexivity.
    - rewrite length_app. simpl. lia.
    - rewrite length_app. simpl. lia. }
  assert (G2 : group content m 2 = Some name).
  { unfold group. rewrite L2. f_equal.
    apply (@slice_app _ (pre ++ chr "<" :: g1) _ (mid ++ chr ">" :: rest)).
    - rewrite E, <- app_assoc. reflexivity.
    - rewrite length_app. simpl. lia.
    - rewrite length_app. simpl. lia. }
  pose proof Hin as Hc. apply classify_found in Hc as (t & Hc).
  exists m, t. split; [assumption|].
  split; [now apply match_at_start in Hm|]. split; [lia|].
  split; [assumption|].
  unfold classify, get_group in Hc. rewrite G1, G2 in Hc. simpl in Hc.
  destruct (group content m 3); simpl in Hc; [|discriminate].
  injection Hc as <-. split; reflexivity.
Qed.

Lemma every_tag_is_found_witness :
  let content := of_string "<a></b class=x>" in
  (exists m t,
      In m (finditer tag_re content)
      /\ m_start m = 3
      /\ m_end m = 15
      /\ classify content m = Ok t
      /\ tag_name t = of_string "b"
      /\ is_closing t = true)
  \/ (exists m', In m' (finditer tag_re content)
                 /\ m_start m' < 3 < m_end m').
Proof.
  intro content.
  apply (@every_tag_is_found content (of_string "<a>") (of_string "/")
           (of_string "b") (of_string " class=x") []).
  - reflexivity.
  - right. reflexivity.
  - discriminate.
  - reflexivity.
  - split; [reflexivity|]. right. left.
    exists (chr " "), (of_string "class=x"). split; reflexivity.
Defined.
